(** * lightning-terminal: account persistence (accounts/tlv.go) and the
      privacy-map command line (cmd/litcli/privacy_map.go)

    A shallow embedding of the TLV serialisation of off-chain balance
    accounts, of the [litcli privacy uint64] command, and of the services the
    specification describes around them (numeric codec, privacy mapper,
    account ledger).

    Conventions.
    - Go's fixed-width integers are [Z] with the wrap-around written out
      ([uint64], [int64], [uint8]).
    - A byte is [Byte.byte]; a [[]byte] and the contents of a reader or a
      writer are [list byte]; [[32]byte] is [vec byte 32].
    - A Go [error] result is the sum [result]; [Ok] is [err == nil].
    - A Go map is a [gmap] (a set: [gset]); the order in which [range] visits
      it is a parameter of the encoders. *)

From Stdlib Require Import ZArith Zbitwise Lia List.
From Stdlib Require Import Strings.Byte Strings.Ascii.
From stdpp Require Import base option list gmap sets vector strings stringmap.

Local Open Scope Z_scope.

(* ===================================================================== *)
(** ** Machine integers *)

Module GoInt.

Definition uint8 (z : Z) : Z := z mod 2 ^ 8.
Definition uint64 (z : Z) : Z := z mod 2 ^ 64.
(** Conversion to [int64]: the two's complement reading of the low 64 bits. *)
Definition int64 (z : Z) : Z := (z + 2 ^ 63) mod 2 ^ 64 - 2 ^ 63.

Definition is_uint8 (z : Z) : Prop := 0 <= z < 2 ^ 8.
Definition is_uint64 (z : Z) : Prop := 0 <= z < 2 ^ 64.
Definition is_int64 (z : Z) : Prop := - 2 ^ 63 <= z < 2 ^ 63.
Definition is_int32 (z : Z) : Prop := - 2 ^ 31 <= z < 2 ^ 31.

End GoInt.
Import GoInt.

(* ===================================================================== *)
(** ** Bytes *)

Abbreviation byte := Byte.byte.

#[global] Instance byte_eq_dec : EqDecision byte := Byte.byte_eq_dec.
#[global] Instance byte_countable : Countable byte :=
  inj_countable Byte.to_N Byte.of_N Byte.of_to_N.

(** Reads exactly [n] bytes into an array of [n] bytes. *)
Fixpoint read_array (n : nat) (r : list byte) : option (vec byte n * list byte) :=
  match n with
  | O => Some ([#], r)
  | S n' =>
      match r with
      | [] => None
      | b :: r' =>
          match read_array n' r' with
          | Some (v, rest) => Some (b ::: v, rest)
          | None => None
          end
      end
  end.

Lemma read_array_app n (v : vec byte n) (rest : list byte) :
  read_array n (vec_to_list v ++ rest) = Some (v, rest).
Proof.
  induction v as [|b n v IH]; simpl; [reflexivity|].
  rewrite IH. reflexivity.
Qed.

Lemma array_decode_encode n (v : vec byte n) :
  fst <$> read_array n (vec_to_list v) = Some v.
Proof.
  rewrite <- (app_nil_r (vec_to_list v)), read_array_app. reflexivity.
Qed.

(** Byte arrays as map keys, with an encoding that computes. *)
#[global] Instance array_countable n : Countable (vec byte n) | 0 :=
  inj_countable vec_to_list (fun l => fst <$> read_array n l)
    (array_decode_encode n).

(** [byte(z)]: the low eight bits of [z]. *)
Definition byte_of_Z (z : Z) : byte :=
  default Byte.x00 (Byte.of_N (Z.to_N (z mod 256))).

Definition Z_of_byte (b : byte) : Z := Z.of_N (Byte.to_N b).

(** [binary.BigEndian.PutUint16/32/64]: the [n] low bytes of [v], most
    significant first. *)
Fixpoint PutUintBE (n : nat) (v : Z) : list byte :=
  match n with
  | O => []
  | S n' => byte_of_Z (Z.shiftr v (8 * Z.of_nat n')) :: PutUintBE n' v
  end.

(** [binary.BigEndian.Uint16/32/64]: [b0<<8(n-1) | ... | b(n-1)]. *)
Definition UintBE (bs : list byte) : Z :=
  fold_left (fun acc b => Z.lor (Z.shiftl acc 8) (Z_of_byte b)) bs 0.

(* ===================================================================== *)
(** ** Errors and readers *)

Inductive error :=
  | EOF
  | ErrUnexpectedEOF
  | ErrVarIntNotCanonical
  | ErrStreamNotCanonical
  | ErrTypeForDecoding
  | ErrNilAccount
  | ErrHexDecode
  | ErrConnect
  | ErrRPC
  | ErrFormat
  | ErrNotFound.
(** [EOF] to [ErrTypeForDecoding] are the errors of [io] and [tlv];
    [ErrNilAccount] is the error of [serializeAccount]; [ErrHexDecode],
    [ErrConnect] and [ErrRPC] stand for what the collaborators of the command
    line can return; [ErrFormat] and [ErrNotFound] are the [FormatError] and
    [NotFoundError] of the specification. *)

Inductive result (A : Type) :=
  | Ok (a : A)
  | Err (e : error).
Arguments Ok {A} a.
Arguments Err {A} e.

#[global] Instance result_ret : MRet result := @Ok.
#[global] Instance result_bind : MBind result := fun A B k m =>
  match m with
  | Ok a => k a
  | Err e => Err e
  end.

(** The unread bytes of an [io.Reader] over a byte slice. *)
Definition reader := list byte.

(** [io.ReadFull(r, buf[:n])]: [EOF] when nothing is left, [ErrUnexpectedEOF]
    when fewer than [n] bytes are. *)
Definition ReadFull (n : nat) (r : reader) : result (list byte * reader) :=
  match n with
  | O => Ok ([], r)
  | S _ =>
      match r with
      | [] => Err EOF
      | _ :: _ =>
          if (length r <? n)%nat then Err ErrUnexpectedEOF
          else Ok (take n r, drop n r)
      end
  end.

(** Readers of the nested reads of [tlv.ReadVarInt] turn [EOF] into
    [ErrUnexpectedEOF]. *)
Definition noEOF {A} (m : result A) : result A :=
  match m with
  | Err EOF => Err ErrUnexpectedEOF
  | _ => m
  end.

(* ===================================================================== *)
(** ** lnd's tlv package: BigSize varints and primitive codecs

    The package [github.com/lightningnetwork/lnd/tlv] is a dependency of the
    repository; its functions are embedded here as the package defines them
    (BigSize varints in their minimal encoding, big-endian integers, records
    of type, length and value). *)

Module tlv.

(** [tlv.WriteVarInt]: the BigSize encoding of a [uint64]. *)
Definition WriteVarInt (val : Z) : list byte :=
  if val <? 0xfd then [byte_of_Z val]
  else if val <=? 0xffff then byte_of_Z 0xfd :: PutUintBE 2 val
  else if val <=? 0xffffffff then byte_of_Z 0xfe :: PutUintBE 4 val
  else byte_of_Z 0xff :: PutUintBE 8 val.

(** [tlv.ReadVarInt]: rejects encodings that are not minimal. *)
Definition ReadVarInt (r : reader) : result (Z * reader) :=
  '(d, r) ← ReadFull 1 r;
  let discriminant := Z_of_byte (hd Byte.x00 d) in
  if discriminant <? 0xfd then Ok (discriminant, r)
  else if discriminant =? 0xfd then
    '(b, r) ← noEOF (ReadFull 2 r);
    let rv := UintBE b in
    if rv <? 0xfd then Err ErrVarIntNotCanonical else Ok (rv, r)
  else if discriminant =? 0xfe then
    '(b, r) ← noEOF (ReadFull 4 r);
    let rv := UintBE b in
    if rv <=? 0xffff then Err ErrVarIntNotCanonical else Ok (rv, r)
  else
    '(b, r) ← noEOF (ReadFull 8 r);
    let rv := UintBE b in
    if rv <=? 0xffffffff then Err ErrVarIntNotCanonical else Ok (rv, r).

(** [tlv.EUint8], [tlv.EUint64]/[tlv.EUint64T], [tlv.EBytes32],
    [tlv.EVarBytes]: what each writes. *)
Definition EUint8 (v : Z) : list byte := [byte_of_Z v].
Definition EUint64T (v : Z) : list byte := PutUintBE 8 v.
Definition EBytes32 (h : vec byte 32) : list byte := vec_to_list h.
Definition EVarBytes (b : list byte) : list byte := b.

(** [tlv.DUint8]: the record must be one byte long. *)
Definition DUint8 (r : reader) (l : Z) : result (Z * reader) :=
  if l =? 1 then
    '(b, r) ← ReadFull 1 r; Ok (Z_of_byte (hd Byte.x00 b), r)
  else Err ErrTypeForDecoding.

(** [tlv.DUint64]: the record must be eight bytes long. *)
Definition DUint64 (r : reader) (l : Z) : result (Z * reader) :=
  if l =? 8 then
    '(b, r) ← ReadFull 8 r; Ok (UintBE b, r)
  else Err ErrTypeForDecoding.

(** [tlv.DBytes32]: the record must be 32 bytes long. *)
Definition DBytes32 (r : reader) (l : Z) : result (vec byte 32 * reader) :=
  if l =? 32 then
    match r with
    | [] => Err EOF
    | _ =>
        match read_array 32 r with
        | Some p => Ok p
        | None => Err ErrUnexpectedEOF
        end
    end
  else Err ErrTypeForDecoding.

(** [tlv.DVarBytes]: reads [l] bytes. *)
Definition DVarBytes (r : reader) (l : Z) : result (list byte * reader) :=
  ReadFull (Z.to_nat l) r.

End tlv.

(* ===================================================================== *)
(** ** lnd's tlv package: records and streams *)

Module tlvstream.
Import tlv.

(** A pointer to a variable of type [A] inside the frame [V] of the
    function that builds the stream. *)
Record ptr (V A : Type) := Ptr {
  load : V -> A;
  store : A -> V -> V
}.
Arguments Ptr {V A}.
Arguments load {V A}.
Arguments store {V A}.

(** [tlv.Record]: a type, a size function, and the codec pair working on
    the variable the record points to. *)
Record TlvRecord (V : Type) := MkRecord {
  typ : Z;
  sizeFunc : V -> Z;
  encoder : V -> list byte;
  decoder : reader -> Z -> V -> result (V * reader)
}.
Arguments MkRecord {V}.
Arguments typ {V}.
Arguments sizeFunc {V}.
Arguments encoder {V}.
Arguments decoder {V}.

Definition MaxUint64 : Z := 2 ^ 64 - 1.

(** [tlv.MakePrimitiveRecord] on a [*uint8]. *)
Definition MakePrimitiveRecord_uint8 {V} (t : Z) (p : ptr V Z) : TlvRecord V :=
  MkRecord t (fun _ => 1)
    (fun v => EUint8 (load p v))
    (fun r l v => '(x, r) ← DUint8 r l; Ok (store p x v, r)).

(** [tlv.MakePrimitiveRecord] on a [*uint64]. *)
Definition MakePrimitiveRecord_uint64 {V} (t : Z) (p : ptr V Z) : TlvRecord V :=
  MkRecord t (fun _ => 8)
    (fun v => EUint64T (load p v))
    (fun r l v => '(x, r) ← DUint64 r l; Ok (store p x v, r)).

(** [tlv.MakePrimitiveRecord] on a [*[]byte]. *)
Definition MakePrimitiveRecord_bytes {V} (t : Z) (p : ptr V (list byte))
    : TlvRecord V :=
  MkRecord t (fun v => Z.of_nat (length (load p v)))
    (fun v => EVarBytes (load p v))
    (fun r l v => '(x, r) ← DVarBytes r l; Ok (store p x v, r)).

(** [tlv.MakeDynamicRecord]. *)
Definition MakeDynamicRecord {V A} (t : Z) (p : ptr V A)
    (size : V -> Z) (enc : A -> list byte)
    (dec : reader -> Z -> result (A * reader)) : TlvRecord V :=
  MkRecord t size
    (fun v => enc (load p v))
    (fun r l v => '(x, r) ← dec r l; Ok (store p x v, r)).

(** The check of [tlv.NewStream]: types strictly ascending. *)
Fixpoint canonical {V} (min : Z) (overflow : bool) (rs : list (TlvRecord V))
    : bool :=
  match rs with
  | [] => true
  | rec :: rs' =>
      if overflow || (typ rec <? min) then false
      else canonical (uint64 (typ rec + 1))
             (if typ rec =? MaxUint64 then true else overflow) rs'
  end.

Definition NewStream {V} (records : list (TlvRecord V))
    : result (list (TlvRecord V)) :=
  if canonical 0 false records then Ok records else Err ErrStreamNotCanonical.

(** [Stream.Encode]: type, length and value of every record in turn. *)
Definition Encode {V} (s : list (TlvRecord V)) (v : V) : list byte :=
  concat (map (fun rec =>
                 WriteVarInt (typ rec) ++ WriteVarInt (sizeFunc rec v)
                 ++ encoder rec v) s).

(** [Stream.getRecord]: the record of type [t] among those not yet passed,
    and the records that remain to be searched. *)
Fixpoint getRecord {V} (t : Z) (rs : list (TlvRecord V))
    : option (TlvRecord V) * list (TlvRecord V) :=
  match rs with
  | [] => (None, [])
  | rec :: rs' =>
      if typ rec =? t then (Some rec, rs')
      else if typ rec <? t then getRecord t rs'
      else (None, rs)
  end.

(** [tlv.TypeMap]: [None] is the nil slice stored for a known type, [Some b]
    the bytes of a record of unknown type. *)
Abbreviation TypeMap := (gmap Z (option (list byte))).

(** The loop of [Stream.decode]; [None] when [fuel] runs out.  A record of
    unknown type is kept in the parsed types when its bytes are all there;
    the buffer the library reserves for them from the announced length is not
    modelled, so a length beyond the bytes present ends here in
    [ErrUnexpectedEOF]. *)
Fixpoint decode {V} (fuel : nat) (rs : list (TlvRecord V)) (min : Z)
    (overflow : bool) (parsedTypes : TypeMap) (v : V) (r : reader)
    : option (result (V * TypeMap)) :=
  match fuel with
  | O => None
  | S fuel' =>
      match ReadVarInt r with
      | Err EOF => Some (Ok (v, parsedTypes))
      | Err e => Some (Err e)
      | Ok (t, r) =>
          if overflow || (t <? min) then Some (Err ErrStreamNotCanonical)
          else
            match ReadVarInt r with
            | Err EOF => Some (Err ErrUnexpectedEOF)
            | Err e => Some (Err e)
            | Ok (len, r) =>
                let overflow' := if t =? MaxUint64 then true else overflow in
                match getRecord t rs with
                | (Some rec, rs') =>
                    match decoder rec r len v with
                    | Err EOF => Some (Err ErrUnexpectedEOF)
                    | Err e => Some (Err e)
                    | Ok (v', r') =>
                        decode fuel' rs' (uint64 (t + 1)) overflow'
                          (<[t := None]> parsedTypes) v' r'
                    end
                | (None, rs') =>
                    if Z.of_nat (length r) <? len
                    then Some (Err ErrUnexpectedEOF)
                    else
                      decode fuel' rs' (uint64 (t + 1)) overflow'
                        (<[t := Some (take (Z.to_nat len) r)]> parsedTypes)
                        v (drop (Z.to_nat len) r)
                end
            end
      end
  end.

(** [Stream.DecodeWithParsedTypes] on a reader over [content]: every
    iteration of the loop consumes at least one byte, so one unit of fuel
    per byte and one more for the final read suffice. *)
Definition DecodeWithParsedTypes {V} (s : list (TlvRecord V)) (v : V)
    (content : list byte) : option (result (V * TypeMap)) :=
  decode (S (length content)) s 0 false ∅ v content.

End tlvstream.

(* ===================================================================== *)
(** ** Go's time.Time, as far as the account code uses it *)

Module time.

(** An instant: seconds since January 1, year 1 UTC (an [int64]) and
    nanoseconds within the second.  The monotonic reading and the location
    are not part of the instant. *)
Record Time := MkTime {
  sec : Z;
  nsec : Z
}.

#[global] Instance Time_eq_dec : EqDecision Time.
Proof. solve_decision. Defined.

Definition unixToInternal : Z := (1969 * 365 + 1969 / 4 - 1969 / 100 + 1969 / 400) * 86400.
Definition internalToUnix : Z := - unixToInternal.

(** The zero value [time.Time{}]. *)
Definition zero : Time := MkTime 0 0.

Definition IsZero (t : Time) : bool := (sec t =? 0) && (nsec t =? 0).

(** [t.UnixNano()], in [int64] arithmetic. *)
Definition UnixNano (t : Time) : Z :=
  int64 (int64 (int64 (sec t + internalToUnix) * 1000000000) + nsec t).

(** [time.Unix(sec, nsec)]. *)
Definition Unix (s n : Z) : Time :=
  let '(s, n) :=
    if (n <? 0) || (1000000000 <=? n) then
      let q := Z.quot n 1000000000 in
      let s := int64 (s + q) in
      let n := int64 (n - int64 (q * 1000000000)) in
      if n <? 0 then (int64 (s - 1), int64 (n + 1000000000)) else (s, n)
    else (s, n) in
  MkTime (int64 (s + unixToInternal)) n.

Definition wf (t : Time) : Prop :=
  is_int64 (sec t) /\ 0 <= nsec t < 1000000000.

(** The instants [UnixNano] can represent (years 1678 to 2262). *)
Definition nano_representable (t : Time) : Prop :=
  is_int64 ((sec t + internalToUnix) * 1000000000 + nsec t).

End time.

(* ===================================================================== *)
(** ** accounts/tlv.go *)

Module accounts.
Import tlv tlvstream.

Definition typeID : Z := 1.
Definition typeAccountType : Z := 2.
Definition typeInitialBalance : Z := 3.
Definition typeCurrentBalance : Z := 4.
Definition typeLastUpdate : Z := 5.
Definition typeExpirationDate : Z := 6.
Definition typeInvoices : Z := 7.
Definition typePayments : Z := 8.

(** [lntypes.HashSize] and [lntypes.Hash]. *)
Definition HashSize : Z := 32.
Abbreviation Hash := (vec byte 32).
(** [AccountID], an array of eight bytes. *)
Abbreviation AccountID := (vec byte 8).

(** Modelled from the spec: the declaration of [PaymentEntry] is not among
    the sources.  Section 3 gives a payment entry a status and a full amount;
    [tlv.go] converts [Status] from and to an [lnrpc.Payment_PaymentStatus]
    (an [int32]) and [FullAmount] from and to an [lnwire.MilliSatoshi] (a
    [uint64]).  The entries of the map are pointers, taken to be non-nil. *)
Record PaymentEntry := MkPaymentEntry {
  Status : Z;
  FullAmount : Z
}.

#[global] Instance PaymentEntry_eq_dec : EqDecision PaymentEntry.
Proof. solve_decision. Defined.

(** Modelled from the spec: the declaration of [OffChainBalanceAccount] is
    not among the sources.  These are the fields of the account of section 3
    that [tlv.go] persists, with the types its conversions give them: [ID] an
    array of eight bytes, [Type] an [AccountType] (a [uint8]),
    [InitialBalance] an [lnwire.MilliSatoshi] (a [uint64]), [CurrentBalance]
    an [int64], two [time.Time] values, a set of hashes and a map from hashes
    to payment entries.  A nil map reads as the empty map. *)
Record OffChainBalanceAccount := MkAccount {
  ID : AccountID;
  Type_ : Z;
  InitialBalance : Z;
  CurrentBalance : Z;
  LastUpdate : time.Time;
  ExpirationDate : time.Time;
  Invoices : gset Hash;
  Payments : gmap Hash PaymentEntry
}.

(** The local variables the records of both functions point to. *)
Record frame := MkFrame {
  id : list byte;
  accountType : Z;
  initialBalance : Z;
  currentBalance : Z;
  lastUpdate : Z;
  expirationDate : Z;
  invoices : gset Hash;
  payments : gmap Hash PaymentEntry
}.

Definition p_id : ptr frame (list byte) :=
  Ptr id (fun x v => MkFrame x (accountType v) (initialBalance v)
    (currentBalance v) (lastUpdate v) (expirationDate v) (invoices v) (payments v)).
Definition p_accountType : ptr frame Z :=
  Ptr accountType (fun x v => MkFrame (id v) x (initialBalance v)
    (currentBalance v) (lastUpdate v) (expirationDate v) (invoices v) (payments v)).
Definition p_initialBalance : ptr frame Z :=
  Ptr initialBalance (fun x v => MkFrame (id v) (accountType v) x
    (currentBalance v) (lastUpdate v) (expirationDate v) (invoices v) (payments v)).
Definition p_currentBalance : ptr frame Z :=
  Ptr currentBalance (fun x v => MkFrame (id v) (accountType v) (initialBalance v)
    x (lastUpdate v) (expirationDate v) (invoices v) (payments v)).
Definition p_lastUpdate : ptr frame Z :=
  Ptr lastUpdate (fun x v => MkFrame (id v) (accountType v) (initialBalance v)
    (currentBalance v) x (expirationDate v) (invoices v) (payments v)).
Definition p_expirationDate : ptr frame Z :=
  Ptr expirationDate (fun x v => MkFrame (id v) (accountType v) (initialBalance v)
    (currentBalance v) (lastUpdate v) x (invoices v) (payments v)).
Definition p_invoices : ptr frame (gset Hash) :=
  Ptr invoices (fun x v => MkFrame (id v) (accountType v) (initialBalance v)
    (currentBalance v) (lastUpdate v) (expirationDate v) x (payments v)).
Definition p_payments : ptr frame (gmap Hash PaymentEntry) :=
  Ptr payments (fun x v => MkFrame (id v) (accountType v) (initialBalance v)
    (currentBalance v) (lastUpdate v) (expirationDate v) (invoices v) x).

(** [copy(dst[:], src)] into a zeroed array of [n] bytes. *)
Fixpoint copy_array (n : nat) (src : list byte) : vec byte n :=
  match n with
  | O => [#]
  | S n' =>
      match src with
      | [] => Byte.x00 ::: copy_array n' []
      | b :: src' => b ::: copy_array n' src'
      end
  end.

Section Range.
(** The order in which a [range] loop visits a map. *)
Variable rangeHashes : gset Hash -> list Hash.
Variable rangePayments : gmap Hash PaymentEntry -> list (Hash * PaymentEntry).

(** The [recordSize] closure of [newHashMapRecord]: the product is an [int],
    converted to [uint64]. *)
Definition hashMapRecordSize (hashMap : gset Hash) : Z :=
  uint64 (Z.of_nat (size hashMap) * HashSize).

Definition HashMapEncoder (t : gset Hash) : list byte :=
  WriteVarInt (uint64 (Z.of_nat (size t)))
  ++ concat (map (fun hash => EBytes32 hash) (rangeHashes t)).

Fixpoint HashMapDecoder_loop (n : nat) (hashes : gset Hash) (r : reader)
    : result (gset Hash * reader) :=
  match n with
  | O => Ok (hashes, r)
  | S n' =>
      '(item, r) ← DBytes32 r 32;
      HashMapDecoder_loop n' ({[ item ]} ∪ hashes) r
  end.

(** [make(map[lntypes.Hash]struct{}, numItems)] yields the empty map, with
    room reserved for [numItems] entries.  Memory is not part of this model:
    a run that the Go runtime aborts in that reservation, on a count far
    beyond the bytes that follow it, has no counterpart here, where such an
    input ends in the error of the first read that finds too few bytes. *)
Definition HashMapDecoder (r : reader) (_ : Z) : result (gset Hash * reader) :=
  '(numItems, r) ← ReadVarInt r;
  HashMapDecoder_loop (Z.to_nat numItems) ∅ r.

Definition newHashMapRecord (tlvType : Z) (hashMap : ptr frame (gset Hash))
    : TlvRecord frame :=
  MakeDynamicRecord tlvType hashMap
    (fun v => hashMapRecordSize (load hashMap v))
    HashMapEncoder HashMapDecoder.

(** The [recordSize] closure of [newPaymentEntryMapRecord]. *)
Definition paymentEntryMapRecordSize (hashMap : gmap Hash PaymentEntry) : Z :=
  uint64 (Z.of_nat (size hashMap) * (HashSize + 1 + 8)).

Definition PaymentEntryMapEncoder (t : gmap Hash PaymentEntry) : list byte :=
  WriteVarInt (uint64 (Z.of_nat (size t)))
  ++ concat (map (fun '(hash, entry) =>
                    EBytes32 hash
                    ++ [byte_of_Z (Status entry)]
                    ++ EUint64T (uint64 (FullAmount entry)))
                 (rangePayments t)).

(** [r.Read(status)] on a one-byte slice. *)
Definition Read1 (r : reader) : result (byte * reader) :=
  match r with
  | [] => Err EOF
  | b :: r' => Ok (b, r')
  end.

Fixpoint PaymentEntryMapDecoder_loop (n : nat)
    (entries : gmap Hash PaymentEntry) (r : reader)
    : result (gmap Hash PaymentEntry * reader) :=
  match n with
  | O => Ok (entries, r)
  | S n' =>
      '(item, r) ← DBytes32 r 32;
      '(status, r) ← Read1 r;
      '(fullAmt, r) ← DUint64 r 8;
      PaymentEntryMapDecoder_loop n'
        (<[item := MkPaymentEntry (Z_of_byte status) fullAmt]> entries) r
  end.

(** As in [HashMapDecoder], the room that
    [make(map[lntypes.Hash]*PaymentEntry, numItems)] reserves is not
    modelled. *)
Definition PaymentEntryMapDecoder (r : reader) (_ : Z)
    : result (gmap Hash PaymentEntry * reader) :=
  '(numItems, r) ← ReadVarInt r;
  PaymentEntryMapDecoder_loop (Z.to_nat numItems) ∅ r.

Definition newPaymentEntryMapRecord (tlvType : Z)
    (hashMap : ptr frame (gmap Hash PaymentEntry)) : TlvRecord frame :=
  MakeDynamicRecord tlvType hashMap
    (fun v => paymentEntryMapRecordSize (load hashMap v))
    PaymentEntryMapEncoder PaymentEntryMapDecoder.

(** The records [serializeAccount] puts in its stream. *)
Definition serializeRecords (account : OffChainBalanceAccount)
    : list (TlvRecord frame) :=
  let tlvRecords :=
    [ MakePrimitiveRecord_bytes typeID p_id;
      MakePrimitiveRecord_uint8 typeAccountType p_accountType;
      MakePrimitiveRecord_uint64 typeInitialBalance p_initialBalance;
      MakePrimitiveRecord_uint64 typeCurrentBalance p_currentBalance;
      MakePrimitiveRecord_uint64 typeLastUpdate p_lastUpdate ] in
  let tlvRecords :=
    if negb (time.IsZero (ExpirationDate account)) then
      tlvRecords ++
        [ MakePrimitiveRecord_uint64 typeExpirationDate p_expirationDate ]
    else tlvRecords in
  tlvRecords ++
    [ newHashMapRecord typeInvoices p_invoices;
      newPaymentEntryMapRecord typePayments p_payments ].

(** The variables of [serializeAccount] once initialised. *)
Definition serializeFrame (account : OffChainBalanceAccount) : frame :=
  {| id := vec_to_list (ID account);
     accountType := uint8 (Type_ account);
     initialBalance := uint64 (InitialBalance account);
     currentBalance := uint64 (CurrentBalance account);
     lastUpdate := uint64 (time.UnixNano (LastUpdate account));
     expirationDate :=
       if negb (time.IsZero (ExpirationDate account))
       then uint64 (time.UnixNano (ExpirationDate account)) else 0;
     invoices := Invoices account;
     payments := Payments account |}.

Definition serializeAccount (account : option OffChainBalanceAccount)
    : result (list byte) :=
  match account with
  | None => Err ErrNilAccount
  | Some account =>
      tlvStream ← NewStream (serializeRecords account);
      Ok (Encode tlvStream (serializeFrame account))
  end.

Definition deserializeRecords : list (TlvRecord frame) :=
  [ MakePrimitiveRecord_bytes typeID p_id;
    MakePrimitiveRecord_uint8 typeAccountType p_accountType;
    MakePrimitiveRecord_uint64 typeInitialBalance p_initialBalance;
    MakePrimitiveRecord_uint64 typeCurrentBalance p_currentBalance;
    MakePrimitiveRecord_uint64 typeLastUpdate p_lastUpdate;
    MakePrimitiveRecord_uint64 typeExpirationDate p_expirationDate;
    newHashMapRecord typeInvoices p_invoices;
    newPaymentEntryMapRecord typePayments p_payments ].

(** The variables of [deserializeAccount] before decoding. *)
Definition zeroFrame : frame := MkFrame [] 0 0 0 0 0 ∅ ∅.

(** The account [deserializeAccount] assembles after a successful decode. *)
Definition buildAccount (v : frame) (parsedTypes : TypeMap)
    : OffChainBalanceAccount :=
  {| ID := copy_array 8 (id v);
     Type_ := accountType v;
     InitialBalance := initialBalance v;
     CurrentBalance := int64 (currentBalance v);
     LastUpdate := time.Unix 0 (int64 (lastUpdate v));
     ExpirationDate :=
       match parsedTypes !! typeExpirationDate with
       | Some None => time.Unix 0 (int64 (expirationDate v))
       | _ => time.zero
       end;
     Invoices := invoices v;
     Payments := payments v |}.

(** [deserializeAccount]; the outer [None] is the decoding loop out of
    fuel, which [deserializeAccount_total] excludes. *)
Definition deserializeAccount (content : list byte)
    : option (result OffChainBalanceAccount) :=
  match NewStream deserializeRecords with
  | Err e => Some (Err e)
  | Ok tlvStream =>
      match DecodeWithParsedTypes tlvStream zeroFrame content with
      | None => None
      | Some (Err e) => Some (Err e)
      | Some (Ok (v, parsedTypes)) => Some (Ok (buildAccount v parsedTypes))
      end
  end.

End Range.

End accounts.

(* ===================================================================== *)
(** ** The numeric codec (specification, section 4.1) *)

Module firewalldb.

(** Modelled from the spec: the width of the fixed-width decimal string.
    The package [firewalldb] is not among the sources; section 4.1 fixes a
    fixed-width decimal representation that round-trips the whole unsigned
    64-bit range, and twenty digits are the fewest that hold [2^64 - 1]. *)
Definition uint64StrWidth : nat := 20.

Definition digit (d : Z) : ascii := ascii_of_nat (48 + Z.to_nat d).

Definition is_digit (c : ascii) : bool :=
  (48 <=? nat_of_ascii c)%nat && (nat_of_ascii c <=? 57)%nat.

Definition digit_value (c : ascii) : Z := Z.of_nat (nat_of_ascii c) - 48.

(** The [n] low decimal digits of [u], most significant first. *)
Fixpoint decimal (n : nat) (u : Z) : list ascii :=
  match n with
  | O => []
  | S n' => decimal n' (u / 10) ++ [digit (u mod 10)]
  end.

Definition decimal_value (l : list ascii) : Z :=
  fold_left (fun acc c => acc * 10 + digit_value c) l 0.

(** Modelled from the spec: [firewalldb.Uint64ToStr], the [encode] of
    section 4.1 (a [uint64] as a fixed-width decimal string). *)
Definition Uint64ToStr (u : Z) : string :=
  String.string_of_list_ascii (decimal uint64StrWidth u).

(** Modelled from the spec: [firewalldb.StrToUint64], the [decode] of
    section 4.1.  It fails when the input is not exactly the expected width
    or holds a character that is not a decimal digit; the result being a
    [uint64], a digit string above [2^64 - 1] is malformed as well. *)
Definition StrToUint64 (s : string) : result Z :=
  let l := String.list_ascii_of_string s in
  if negb (length l =? uint64StrWidth)%nat then Err ErrFormat
  else if negb (forallb is_digit l) then Err ErrFormat
  else
    let v := decimal_value l in
    if v <? 2 ^ 64 then Ok v else Err ErrFormat.

End firewalldb.

(* ===================================================================== *)
(** ** cmd/litcli/privacy_map.go *)

Module litcli.

(** [litrpc.PrivacyMapConversionRequest] and its response. *)
Record PrivacyMapConversionRequest := MkRequest {
  SessionId : list byte;
  RealToPseudo : bool;
  Input : string
}.

Record PrivacyMapConversionResponse := MkResponse {
  Output : string
}.

(** The flags of the command as [cli.Context] hands them out. *)
Record Context := MkContext {
  session_id : string;
  realtopseudo : bool;
  input : Z
}.

(** What the command does to the outside: the requests it sends and the
    responses it prints, in order. *)
Inductive event :=
  | Call (req : PrivacyMapConversionRequest)
  | PrintJSON (resp : PrivacyMapConversionResponse).

Section Command.
(** The collaborators of the command: the connection, [hex.DecodeString],
    the remote [PrivacyMapConversion] call, the numeric codec of
    [firewalldb], and [fmt.Sprintf("%d", _)]. *)
Variable connectClient : Context -> result unit.
Variable DecodeString : string -> result (list byte).
Variable PrivacyMapConversion :
  PrivacyMapConversionRequest -> result PrivacyMapConversionResponse.
Variable Uint64ToStr : Z -> string.
Variable StrToUint64 : string -> result Z.
Variable Sprintf_d : Z -> string.

Definition privacyMapConvertStr (ctx : Context) (arg : string)
    : list event * result unit :=
  match connectClient ctx with
  | Err e => ([], Err e)
  | Ok _ =>
      match DecodeString (session_id ctx) with
      | Err e => ([], Err e)
      | Ok id =>
          let req := MkRequest id (realtopseudo ctx) arg in
          match PrivacyMapConversion req with
          | Err e => ([Call req], Err e)
          | Ok resp => ([Call req; PrintJSON resp], Ok ())
          end
      end
  end.

Definition privacyMapConvertUint64 (ctx : Context) : list event * result unit :=
  match connectClient ctx with
  | Err e => ([], Err e)
  | Ok _ =>
      match DecodeString (session_id ctx) with
      | Err e => ([], Err e)
      | Ok id =>
          let input := Uint64ToStr (input ctx) in
          let req := MkRequest id (realtopseudo ctx) input in
          match PrivacyMapConversion req with
          | Err e => ([Call req], Err e)
          | Ok resp =>
              match StrToUint64 (Output resp) with
              | Err e => ([Call req], Err e)
              | Ok output =>
                  ([Call req; PrintJSON (MkResponse (Sprintf_d output))], Ok ())
              end
          end
      end
  end.

End Command.

End litcli.

(* ===================================================================== *)
(** ** The privacy mapper (specification, section 4.2) *)

Module privacymapper.

(** One session's namespace: both directions of the mapping. *)
Record namespace := MkNamespace {
  realToPseudoMap : gmap string string;
  pseudoToRealMap : gmap string string
}.

Definition emptyNamespace : namespace := MkNamespace ∅ ∅.

(** The store: a namespace per session id, created on first use. *)
Abbreviation mapper := (gmap string namespace).

Section Mapper.
(** The pseudonym generator: from the randomness drawn for the call and the
    pseudo values already used in the namespace to a new pseudo value. *)
Variable newPseudo : nat -> gset string -> string.

(** Modelled from the spec: [realToPseudo] of section 4.2, which is not among
    the sources.  It returns the existing pseudo value of [real] when there is
    one, and otherwise allocates a new one, persists the pair and returns
    it. *)
Definition realToPseudo (rnd : nat) (m : mapper) (sessionID real : string)
    : string * mapper :=
  let ns := default emptyNamespace (m !! sessionID) in
  match realToPseudoMap ns !! real with
  | Some pseudo => (pseudo, m)
  | None =>
      let pseudo := newPseudo rnd (dom (pseudoToRealMap ns)) in
      (pseudo,
       <[sessionID := MkNamespace (<[real := pseudo]> (realToPseudoMap ns))
                        (<[pseudo := real]> (pseudoToRealMap ns))]> m)
  end.

(** Modelled from the spec: [pseudoToReal] of section 4.2, the reverse
    lookup, which fails when the pseudo value was never issued for the
    session. *)
Definition pseudoToReal (m : mapper) (sessionID pseudo : string)
    : result string :=
  match m !! sessionID with
  | None => Err ErrNotFound
  | Some ns =>
      match pseudoToRealMap ns !! pseudo with
      | Some real => Ok real
      | None => Err ErrNotFound
      end
  end.

(** Modelled from the spec: [clear] of section 4.2 erases the namespace. *)
Definition clear (m : mapper) (sessionID : string) : mapper :=
  delete sessionID m.

(** The stores the operations can produce from the empty one. *)
Inductive reachable : mapper -> Prop :=
  | reach_empty : reachable ∅
  | reach_realToPseudo rnd m sessionID real :
      reachable m -> reachable (realToPseudo rnd m sessionID real).2
  | reach_clear m sessionID :
      reachable m -> reachable (clear m sessionID).

(** Both directions of every namespace agree. *)
Definition consistent (m : mapper) : Prop :=
  forall sessionID ns, m !! sessionID = Some ns ->
    forall real pseudo,
      realToPseudoMap ns !! real = Some pseudo <->
      pseudoToRealMap ns !! pseudo = Some real.

End Mapper.

End privacymapper.

(* ===================================================================== *)
(** ** The account ledger (specification, section 4.3) *)

Module ledger.
Import accounts.

(** The ledger: accounts by id. *)
Abbreviation store := (gmap AccountID OffChainBalanceAccount).

(** [lnrpc.Payment_IN_FLIGHT]. *)
Definition StatusInFlight : Z := 1.

Inductive reservation :=
  | Reserved
  | Declined.

(** [t.Before(u)] on instants. *)
Definition Before (t u : time.Time) : bool :=
  (time.sec t <? time.sec u)
  || ((time.sec t =? time.sec u) && (time.nsec t <? time.nsec u)).

(** Section 4.3, Expiry: an account whose expiration is set and in the
    past. *)
Definition expired (now : time.Time) (a : OffChainBalanceAccount) : bool :=
  negb (time.IsZero (ExpirationDate a)) && Before (ExpirationDate a) now.

(** Modelled from the spec: [reservePayment] of section 4.3, which is not
    among the sources.  The reservation is declined when the account has
    expired or when [reserveAmount] exceeds the current balance; otherwise the
    balance is debited, a pending entry recorded and [last_update] set. *)
Definition reservePayment (now : time.Time) (s : store) (accountID : AccountID)
    (paymentHash : Hash) (reserveAmount : Z)
    : result (reservation * store) :=
  match s !! accountID with
  | None => Err ErrNotFound
  | Some a =>
      if expired now a then Ok (Declined, s)
      else if CurrentBalance a <? reserveAmount then Ok (Declined, s)
      else
        let a' :=
          {| ID := ID a;
             Type_ := Type_ a;
             InitialBalance := InitialBalance a;
             CurrentBalance := CurrentBalance a - reserveAmount;
             LastUpdate := now;
             ExpirationDate := ExpirationDate a;
             Invoices := Invoices a;
             Payments :=
               <[paymentHash := MkPaymentEntry StatusInFlight reserveAmount]>
                 (Payments a) |} in
        Ok (Reserved, <[accountID := a']> s)
  end.

End ledger.

(* ===================================================================== *)
(** * Properties *)

(* ===================================================================== *)
(** ** Integers and bytes *)

Section IntegerFacts.
Local Open Scope Z_scope.

Lemma uint64_id z : is_uint64 z -> uint64 z = z.
Proof. unfold is_uint64, uint64. intros H. apply Z.mod_small. lia. Qed.

Lemma uint8_id z : is_uint8 z -> uint8 z = z.
Proof. unfold is_uint8, uint8. intros H. apply Z.mod_small. lia. Qed.

Lemma uint8_range z : is_uint8 (uint8 z).
Proof. unfold is_uint8, uint8. apply Z.mod_pos_bound. lia. Qed.

Lemma uint64_range z : is_uint64 (uint64 z).
Proof. unfold is_uint64, uint64. apply Z.mod_pos_bound. lia. Qed.

Lemma int64_id z : is_int64 z -> int64 z = z.
Proof.
  unfold is_int64, int64. intros H.
  rewrite Z.mod_small by lia. lia.
Qed.

Lemma int64_range z : is_int64 (int64 z).
Proof.
  unfold is_int64, int64.
  pose proof (Z.mod_pos_bound (z + 2 ^ 63) (2 ^ 64)). lia.
Qed.

(** The cast to [uint64] and back to [int64] is the identity on [int64]. *)
Lemma int64_uint64 z : is_int64 z -> int64 (uint64 z) = z.
Proof.
  unfold is_int64, int64, uint64. intros H.
  rewrite Zplus_mod_idemp_l. rewrite Z.mod_small by lia. lia.
Qed.

(** [int64] only depends on the low 64 bits. *)
Lemma int64_mod z : int64 (z mod 2 ^ 64) = int64 z.
Proof. unfold int64. rewrite Zplus_mod_idemp_l. reflexivity. Qed.

Lemma int64_uint64_mod z : int64 (uint64 z mod 2 ^ 64) = int64 z.
Proof. unfold uint64. rewrite !int64_mod. reflexivity. Qed.

Lemma int64_congr a b : (a - b) mod 2 ^ 64 = 0 -> int64 a = int64 b.
Proof.
  unfold int64. intros H. f_equal.
  apply Z.mod_divide in H; [|lia]. destruct H as [k Hk].
  replace (a + 2 ^ 63) with (b + 2 ^ 63 + k * 2 ^ 64) by lia.
  apply Z_mod_plus_full.
Qed.

Lemma Z_of_byte_range b : 0 <= Z_of_byte b < 256.
Proof.
  unfold Z_of_byte. pose proof (Byte.to_N_bounded b). lia.
Qed.

Lemma Z_of_byte_of_Z z : Z_of_byte (byte_of_Z z) = z mod 256.
Proof.
  unfold Z_of_byte, byte_of_Z.
  pose proof (Z.mod_pos_bound z 256 ltac:(lia)) as Hz.
  destruct (Byte.of_N (Z.to_N (z mod 256))) as [b|] eqn:E.
  - simpl. apply Byte.to_of_N in E. rewrite E. lia.
  - apply Byte.of_N_None_iff in E. lia.
Qed.

Lemma byte_of_Z_of_byte b : byte_of_Z (Z_of_byte b) = b.
Proof.
  unfold Z_of_byte, byte_of_Z.
  pose proof (Byte.to_N_bounded b).
  rewrite Z.mod_small by lia.
  rewrite N2Z.id, Byte.of_to_N. reflexivity.
Qed.

Lemma PutUintBE_length n v : length (PutUintBE n v) = n.
Proof. induction n; simpl; congruence. Qed.

Lemma UintBE_PutUintBE_acc n v acc :
  fold_left (fun a b => Z.lor (Z.shiftl a 8) (Z_of_byte b)) (PutUintBE n v) acc
  = Z.lor (Z.shiftl acc (8 * Z.of_nat n)) (v mod 2 ^ (8 * Z.of_nat n)).
Proof.
  revert acc. induction n as [|n IH]; intros acc.
  - simpl. rewrite Z.shiftl_0_r, Z.mod_1_r, Z.lor_0_r. reflexivity.
  - cbn [PutUintBE fold_left]. rewrite IH, Z_of_byte_of_Z.
    apply Z.bits_inj'. intros i Hi.
    change 256 with (2 ^ 8).
    rewrite !Z.lor_spec, !Z.testbit_mod_pow2 by lia.
    rewrite !Z.shiftl_spec by lia.
    destruct (Z.ltb_spec i (8 * Z.of_nat n)) as [Hlt|Hge].
    + rewrite (Z.testbit_neg_r _ (i - 8 * Z.of_nat n)) by lia.
      rewrite (Z.testbit_neg_r _ (i - 8 * Z.of_nat (S n))) by lia.
      replace (i <? 8 * Z.of_nat (S n)) with true
        by (symmetry; apply Z.ltb_lt; lia).
      reflexivity.
    + rewrite Z.lor_spec, Z.testbit_mod_pow2 by lia.
      rewrite Z.shiftl_spec, Z.shiftr_spec by lia.
      replace (i - 8 * Z.of_nat n - 8) with (i - 8 * Z.of_nat (S n)) by lia.
      replace (i - 8 * Z.of_nat n + 8 * Z.of_nat n) with i by lia.
      replace (i - 8 * Z.of_nat n <? 8) with (i <? 8 * Z.of_nat (S n)).
      * rewrite Bool.orb_false_r. reflexivity.
      * destruct (Z.ltb_spec i (8 * Z.of_nat (S n))),
          (Z.ltb_spec (i - 8 * Z.of_nat n) 8); try reflexivity; lia.
Qed.

(** Reading back what [PutUintBE] wrote gives the low [8n] bits. *)
Lemma UintBE_PutUintBE n v :
  UintBE (PutUintBE n v) = v mod 2 ^ (8 * Z.of_nat n).
Proof.
  unfold UintBE. rewrite UintBE_PutUintBE_acc.
  rewrite Z.shiftl_0_l, Z.lor_0_l. reflexivity.
Qed.

End IntegerFacts.

(* ===================================================================== *)
(** ** Readers, varints and the primitive codecs *)

Section CodecFacts.
Import tlv.
Local Open Scope Z_scope.

Lemma ReadFull_ok n r :
  (0 < n <= length r)%nat -> ReadFull n r = Ok (take n r, drop n r).
Proof.
  intros H. unfold ReadFull.
  destruct n as [|n]; [lia|]. destruct r as [|b r]; [simpl in H; lia|].
  destruct (Nat.ltb_spec (length (b :: r)) (S n)); [lia|reflexivity].
Qed.

Lemma ReadFull_app (l rest : list byte) :
  ReadFull (length l) (l ++ rest) = Ok (l, rest).
Proof.
  destruct l as [|b l]; [reflexivity|].
  rewrite ReadFull_ok by (rewrite length_app; simpl; lia).
  rewrite take_app_length, drop_app_length. reflexivity.
Qed.

Lemma ReadFull_PutUintBE n v rest :
  ReadFull n (PutUintBE n v ++ rest) = Ok (PutUintBE n v, rest).
Proof.
  rewrite <- (PutUintBE_length n v) at 1. apply ReadFull_app.
Qed.

Lemma ReadFull_shrinks n r l r' :
  ReadFull n r = Ok (l, r') -> (length r' + n = length r)%nat.
Proof.
  unfold ReadFull. destruct n as [|n].
  - intros [= <- <-]. lia.
  - destruct r as [|b r]; [discriminate|].
    destruct (Nat.ltb_spec (length (b :: r)) (S n)); [discriminate|].
    intros [= <- <-]. rewrite length_drop. simpl in *. lia.
Qed.

Lemma noEOF_Ok {A} (m : result A) (a : A) : noEOF m = Ok a -> m = Ok a.
Proof. destruct m as [x|[]]; simpl; congruence. Qed.

(** [ReadVarInt] consumes at least one byte. *)
Lemma ReadVarInt_shrinks r x r' :
  ReadVarInt r = Ok (x, r') -> (length r' < length r)%nat.
Proof.
  unfold ReadVarInt.
  destruct (ReadFull 1 r) as [[d r1]|e] eqn:E1; [|discriminate].
  apply ReadFull_shrinks in E1. cbn [mbind result_bind].
  assert (Hn : forall n (f : Z -> bool),
    ('(b, r0) ← noEOF (ReadFull n r1);
       (if f (UintBE b) then Err ErrVarIntNotCanonical else Ok (UintBE b, r0)))
    = Ok (x, r') -> (length r' < length r)%nat).
  { intros n f. destruct (ReadFull n r1) as [[b r0]|e] eqn:E; cbn.
    - apply ReadFull_shrinks in E. destruct (f (UintBE b)); [discriminate|].
      intros [= _ <-]. lia.
    - destruct e; discriminate. }
  destruct (_ <? 253).
  { intros [= _ <-]. lia. }
  destruct (_ =? 253); [apply (Hn 2%nat (fun rv => rv <? 253))|].
  destruct (_ =? 254); [apply (Hn 4%nat (fun rv => rv <=? 65535))|].
  apply (Hn 8%nat (fun rv => rv <=? 4294967295)).
Qed.

(** Reading a varint back, whatever follows it. *)
Lemma ReadVarInt_WriteVarInt v rest :
  is_uint64 v -> ReadVarInt (WriteVarInt v ++ rest) = Ok (v, rest).
Proof.
  unfold is_uint64, ReadVarInt, WriteVarInt. intros Hv.
  destruct (Z.ltb_spec v 253) as [H1|H1].
  { cbn [app ReadFull length Nat.ltb Nat.leb take drop firstn skipn
         mbind result_bind hd].
    rewrite Z_of_byte_of_Z, Z.mod_small by lia.
    replace (v <? 253) with true by (symmetry; apply Z.ltb_lt; lia).
    reflexivity. }
  assert (Hd : forall d tl, ReadFull 1 ((byte_of_Z d :: tl) ++ rest)
                 = Ok ([byte_of_Z d], tl ++ rest)) by reflexivity.
  destruct (Z.leb_spec v 65535) as [H2|H2];
    [|destruct (Z.leb_spec v 4294967295) as [H3|H3]];
    rewrite Hd; cbn [mbind result_bind hd];
    rewrite ReadFull_PutUintBE; cbn [noEOF mbind result_bind];
    rewrite UintBE_PutUintBE.
  - rewrite (Z.mod_small v) by (simpl; lia).
    replace (v <? 253) with false by (symmetry; apply Z.ltb_ge; lia).
    reflexivity.
  - rewrite (Z.mod_small v) by (simpl; lia).
    replace (v <=? 65535) with false by (symmetry; apply Z.leb_gt; lia).
    reflexivity.
  - rewrite (Z.mod_small v) by (simpl; lia).
    replace (v <=? 4294967295) with false by (symmetry; apply Z.leb_gt; lia).
    reflexivity.
Qed.

(** A varint takes 1, 3, 5 or 9 bytes. *)
Lemma WriteVarInt_length v :
  (1 <= length (WriteVarInt v) <= 9)%nat.
Proof.
  unfold WriteVarInt.
  repeat match goal with |- context [if ?c then _ else _] => destruct c end;
    cbn [length]; rewrite ?PutUintBE_length; lia.
Qed.

Lemma DUint8_EUint8 v rest :
  is_uint8 v -> DUint8 (EUint8 v ++ rest) 1 = Ok (v, rest).
Proof.
  unfold is_uint8, DUint8, EUint8. intros Hv. simpl.
  rewrite Z_of_byte_of_Z, Z.mod_small by lia. reflexivity.
Qed.

Lemma DUint64_EUint64T v rest :
  DUint64 (EUint64T v ++ rest) 8 = Ok (v mod 2 ^ 64, rest).
Proof.
  unfold DUint64, EUint64T. cbn [Z.eqb Pos.eqb].
  rewrite ReadFull_PutUintBE. cbn [mbind result_bind].
  rewrite UintBE_PutUintBE. reflexivity.
Qed.

Lemma DBytes32_EBytes32 (h : vec byte 32) rest :
  DBytes32 (EBytes32 h ++ rest) 32 = Ok (h, rest).
Proof.
  unfold DBytes32, EBytes32. cbn [Z.eqb Pos.eqb].
  rewrite read_array_app.
  destruct (vec_to_list h ++ rest) eqn:E; [|reflexivity].
  apply (f_equal length) in E. rewrite length_app, length_vec_to_list in E.
  discriminate.
Qed.

Lemma read_array_shrinks n r (v : vec byte n) r' :
  read_array n r = Some (v, r') -> (length r' + n = length r)%nat.
Proof.
  revert r v r'. induction n as [|n IH]; intros r v r'; simpl.
  - intros [= _ <-]. lia.
  - destruct r as [|b r]; [discriminate|].
    destruct (read_array n r) as [[v0 r0]|] eqn:E; [|discriminate].
    intros [= _ <-]. apply IH in E. simpl. lia.
Qed.

Lemma DBytes32_shrinks r l h r' :
  DBytes32 r l = Ok (h, r') -> (length r' + 32 = length r)%nat.
Proof.
  unfold DBytes32. destruct (l =? 32); [|discriminate].
  destruct r as [|b r]; [discriminate|].
  destruct (read_array 32 (b :: r)) as [[v0 r0]|] eqn:E; [|discriminate].
  intros [= _ <-]. apply read_array_shrinks in E. lia.
Qed.

Lemma DUint64_shrinks r l x r' :
  DUint64 r l = Ok (x, r') -> (length r' <= length r)%nat.
Proof.
  unfold DUint64. destruct (l =? 8); [|discriminate].
  destruct (ReadFull 8 r) as [[b r1]|] eqn:E; [|discriminate].
  cbn [mbind result_bind]. intros [= _ <-].
  apply ReadFull_shrinks in E. lia.
Qed.

Lemma DUint8_shrinks r l x r' :
  DUint8 r l = Ok (x, r') -> (length r' <= length r)%nat.
Proof.
  unfold DUint8. destruct (l =? 1); [|discriminate].
  destruct (ReadFull 1 r) as [[b r1]|] eqn:E; [|discriminate].
  cbn [mbind result_bind]. intros [= _ <-].
  apply ReadFull_shrinks in E. lia.
Qed.

Lemma DVarBytes_shrinks r l x r' :
  DVarBytes r l = Ok (x, r') -> (length r' <= length r)%nat.
Proof.
  unfold DVarBytes. intros E. apply ReadFull_shrinks in E. lia.
Qed.

Lemma DVarBytes_EVarBytes (b rest : list byte) :
  DVarBytes (EVarBytes b ++ rest) (Z.of_nat (length b)) = Ok (b, rest).
Proof.
  unfold DVarBytes, EVarBytes. rewrite Nat2Z.id. apply ReadFull_app.
Qed.

End CodecFacts.

(* ===================================================================== *)
(** ** The map codecs of accounts/tlv.go *)

Section MapCodecFacts.
Import tlv tlvstream accounts.
Local Open Scope Z_scope.

(** What a payment entry looks like once it went through the wire format:
    the status cut to one byte, the amount to 64 bits. *)
Definition persistedEntry (e : PaymentEntry) : PaymentEntry :=
  MkPaymentEntry (Status e mod 256) (uint64 (FullAmount e)).

(** The bytes [PaymentEntryMapEncoder] writes for one entry. *)
Definition entryBytes (p : Hash * PaymentEntry) : list byte :=
  EBytes32 p.1 ++ [byte_of_Z (Status p.2)] ++ EUint64T (uint64 (FullAmount p.2)).

(** Entries whose status fits the byte it is stored in. *)
Definition status_fits (e : PaymentEntry) : Prop := 0 <= Status e <= 255.

Lemma persistedEntry_id e :
  status_fits e -> is_uint64 (FullAmount e) -> persistedEntry e = e.
Proof.
  unfold status_fits, persistedEntry. intros Hs Hf. destruct e as [s f].
  simpl in *. rewrite Z.mod_small by lia. rewrite uint64_id by done.
  reflexivity.
Qed.

Lemma HashMapDecoder_loop_app (l : list Hash) (acc : gset Hash) rest :
  HashMapDecoder_loop (length l) acc (concat (map EBytes32 l) ++ rest)
  = Ok (list_to_set l ∪ acc, rest).
Proof.
  revert acc. induction l as [|h l IH]; intros acc.
  - simpl. rewrite (left_id_L ∅ (∪)). reflexivity.
  - cbn [length map concat HashMapDecoder_loop list_to_set].
    rewrite <- app_assoc, DBytes32_EBytes32. cbn [mbind result_bind].
    rewrite IH. f_equal. f_equal.
    rewrite (assoc_L (∪)), (comm_L (∪) (list_to_set l)). reflexivity.
Qed.

Lemma hashes_length (l : list Hash) :
  length (concat (map EBytes32 l)) = (32 * length l)%nat.
Proof.
  induction l as [|h l IH]; [reflexivity|].
  cbn [map concat length]. rewrite length_app, IH.
  unfold EBytes32. rewrite length_vec_to_list. lia.
Qed.

Lemma entryBytes_length p : length (entryBytes p) = 41%nat.
Proof.
  unfold entryBytes, EBytes32, EUint64T.
  rewrite !length_app, length_vec_to_list, PutUintBE_length. reflexivity.
Qed.

Lemma entries_length (l : list (Hash * PaymentEntry)) :
  length (concat (map entryBytes l)) = (41 * length l)%nat.
Proof.
  induction l as [|p l IH]; [reflexivity|].
  cbn [map concat length]. rewrite length_app, IH, entryBytes_length. lia.
Qed.

Lemma PaymentEntryMapDecoder_loop_app (l : list (Hash * PaymentEntry))
    (acc : gmap Hash PaymentEntry) rest :
  PaymentEntryMapDecoder_loop (length l) acc (concat (map entryBytes l) ++ rest)
  = Ok (fold_left (fun a p => <[p.1 := persistedEntry p.2]> a) l acc, rest).
Proof.
  revert acc. induction l as [|[h e] l IH]; intros acc; [reflexivity|].
  cbn [length map concat PaymentEntryMapDecoder_loop fold_left].
  unfold entryBytes at 1. cbn [fst snd].
  rewrite <- !app_assoc, DBytes32_EBytes32. cbn [mbind result_bind app Read1].
  rewrite DUint64_EUint64T. cbn [mbind result_bind].
  rewrite IH, Z_of_byte_of_Z. unfold persistedEntry at 2, uint64. cbn [fst snd].
  rewrite Z.mod_mod by lia. reflexivity.
Qed.

Lemma fold_insert_list_to_map (l : list (Hash * PaymentEntry))
    (acc : gmap Hash PaymentEntry) :
  NoDup l.*1 ->
  fold_left (fun a p => <[p.1 := persistedEntry p.2]> a) l acc
  = list_to_map (fmap (M:=list) (prod_map Datatypes.id persistedEntry) l) ∪ acc.
Proof.
  revert acc. induction l as [|[h e] l IH]; intros acc Hnd.
  - simpl. rewrite (left_id_L ∅ (∪)). reflexivity.
  - rewrite fmap_cons in Hnd. apply NoDup_cons in Hnd as [Hh Hnd].
    cbn [fold_left fst snd]. rewrite IH by done.
    rewrite fmap_cons. cbn [prod_map fst snd Datatypes.id].
    rewrite list_to_map_cons, <- insert_union_l.
    symmetry. apply insert_union_r.
    apply not_elem_of_list_to_map_1.
    rewrite <- list_fmap_compose. exact Hh.
Qed.

Lemma entries_roundtrip (l : list (Hash * PaymentEntry))
    (m : gmap Hash PaymentEntry) rest :
  l ≡ₚ map_to_list m ->
  PaymentEntryMapDecoder_loop (length l) ∅ (concat (map entryBytes l) ++ rest)
  = Ok (persistedEntry <$> m, rest).
Proof.
  intros Hl. rewrite PaymentEntryMapDecoder_loop_app. f_equal. f_equal.
  assert (Hnd : NoDup l.*1).
  { rewrite Hl. apply NoDup_fst_map_to_list. }
  rewrite fold_insert_list_to_map by done.
  rewrite (right_id_L ∅ (∪)).
  rewrite (list_to_map_proper _
    (fmap (M:=list) (prod_map Datatypes.id persistedEntry) (map_to_list m))).
  - rewrite <- map_to_list_fmap, list_to_map_to_list. reflexivity.
  - rewrite <- list_fmap_compose. done.
  - rewrite Hl. reflexivity.
Qed.

End MapCodecFacts.

(* ===================================================================== *)
(** ** Instants and Unix nanoseconds *)

Section TimeFacts.
Import time.
Local Open Scope Z_scope.

Lemma int64_eqm a : exists k, int64 a = a + k * 2 ^ 64.
Proof.
  unfold int64. exists (- ((a + 2 ^ 63) / 2 ^ 64)).
  pose proof (Z.div_mod (a + 2 ^ 63) (2 ^ 64) ltac:(lia)). lia.
Qed.

Lemma int64_add_l a b : int64 (int64 a + b) = int64 (a + b).
Proof.
  destruct (int64_eqm a) as [k ->]. apply int64_congr.
  replace (a + k * 2 ^ 64 + b - (a + b)) with (k * 2 ^ 64) by lia.
  apply Z_mod_mult.
Qed.

Lemma int64_mul_l a b : int64 (int64 a * b) = int64 (a * b).
Proof.
  destruct (int64_eqm a) as [k ->]. apply int64_congr.
  replace ((a + k * 2 ^ 64) * b - a * b) with (k * b * 2 ^ 64) by lia.
  apply Z_mod_mult.
Qed.

(** [UnixNano] is the nanosecond count since the Unix epoch, cut to 64 bits. *)
Lemma UnixNano_spec t :
  UnixNano t = int64 ((sec t + internalToUnix) * 1000000000 + nsec t).
Proof.
  unfold UnixNano. rewrite int64_mul_l, int64_add_l. reflexivity.
Qed.

Lemma UnixNano_range t : is_int64 (UnixNano t).
Proof. apply int64_range. Qed.

(** [time.Unix(0, n)] splits [n] into whole seconds and the rest. *)
Lemma Unix_0_spec n :
  is_int64 n ->
  Unix 0 n = MkTime (n / 1000000000 + unixToInternal) (n mod 1000000000).
Proof.
  unfold is_int64. intros Hn.
  pose proof (Z.div_mod n 1000000000 ltac:(lia)) as Hdm.
  pose proof (Z.mod_pos_bound n 1000000000 ltac:(lia)) as Hm.
  assert (Hu : unixToInternal = 62135596800) by reflexivity.
  unfold Unix.
  destruct ((n <? 0) || (1000000000 <=? n)) eqn:Hc.
  - pose proof (Z.quot_rem' n 1000000000) as Hqr.
    assert (Hr : (0 <= n -> 0 <= Z.rem n 1000000000 < 1000000000)
                 /\ (n < 0 -> -1000000000 < Z.rem n 1000000000 <= 0)).
    { split; intros Hs.
      - apply Z.rem_bound_pos; lia.
      - pose proof (Z.rem_bound_pos_neg n 1000000000 ltac:(lia) ltac:(lia)). lia. }
    destruct Hr as [Hr1 Hr2].
    set (q := Z.quot n 1000000000) in *.
    set (r := Z.rem n 1000000000) in *.
    rewrite (int64_id (0 + q)) by (unfold is_int64; lia).
    rewrite (int64_id (q * 1000000000)) by (unfold is_int64; lia).
    rewrite (int64_id (n - q * 1000000000)) by (unfold is_int64; lia).
    destruct (Z.ltb_spec (n - q * 1000000000) 0) as [Hneg|Hpos].
    + rewrite (int64_id (0 + q - 1)) by (unfold is_int64; lia).
      rewrite (int64_id (n - q * 1000000000 + 1000000000))
        by (unfold is_int64; lia).
      rewrite int64_id by (unfold is_int64; lia).
      f_equal; lia.
    + rewrite int64_id by (unfold is_int64; lia).
      f_equal; lia.
  - apply Bool.orb_false_iff in Hc as [H1 H2].
    apply Z.ltb_ge in H1. apply Z.leb_gt in H2.
    rewrite int64_id by (unfold is_int64; lia).
    rewrite Z.div_small, Z.mod_small by lia. reflexivity.
Qed.

(** An instant built from Unix nanoseconds reads back as the same count. *)
Lemma UnixNano_Unix n : is_int64 n -> UnixNano (Unix 0 n) = n.
Proof.
  intros Hn. rewrite UnixNano_spec, Unix_0_spec by done. cbn [sec nsec].
  unfold internalToUnix.
  pose proof (Z.div_mod n 1000000000 ltac:(lia)).
  replace ((n / 1000000000 + unixToInternal + - unixToInternal) * 1000000000
           + n mod 1000000000) with n by lia.
  apply int64_id, Hn.
Qed.

(** An instant built from Unix nanoseconds is never the zero instant. *)
Lemma IsZero_Unix n : is_int64 n -> IsZero (Unix 0 n) = false.
Proof.
  intros Hn. rewrite Unix_0_spec by done. unfold IsZero. cbn [sec nsec].
  unfold is_int64 in Hn.
  assert (Hu : unixToInternal = 62135596800) by reflexivity.
  assert (-9223372037 <= n / 1000000000).
  { apply Z.div_le_lower_bound; lia. }
  replace (n / 1000000000 + unixToInternal =? 0) with false; [reflexivity|].
  symmetry. apply Z.eqb_neq. lia.
Qed.

(** The instants that survive the conversion to Unix nanoseconds and back. *)
Lemma Unix_UnixNano t :
  wf t -> nano_representable t -> Unix 0 (UnixNano t) = t.
Proof.
  unfold wf, nano_representable. intros [_ Hns] Hrep.
  rewrite UnixNano_spec, (int64_id _ Hrep), Unix_0_spec by exact Hrep.
  destruct t as [s n]. cbn [sec nsec] in *.
  unfold internalToUnix.
  assert (Hu : unixToInternal = 62135596800) by reflexivity.
  set (N := (s + - unixToInternal) * 1000000000 + n) in *.
  assert (Hd : N / 1000000000 = s - unixToInternal).
  { symmetry. apply (Z.div_unique N 1000000000 _ n); unfold N; lia. }
  assert (Hm : N mod 1000000000 = n).
  { symmetry. apply (Z.mod_unique N 1000000000 (s - unixToInternal));
      unfold N; lia. }
  rewrite Hd, Hm. f_equal. lia.
Qed.

Lemma IsZero_true t : IsZero t = true -> t = zero.
Proof.
  unfold IsZero, zero. destruct t as [s n]. cbn [sec nsec].
  intros [Hs Hn]%andb_prop. apply Z.eqb_eq in Hs, Hn. congruence.
Qed.

End TimeFacts.

(* ===================================================================== *)
(** ** Streams: what the decoding loop guarantees *)

Section VarIntRange.
Import tlv.
Local Open Scope Z_scope.

Lemma UintBE_fold_range bs acc :
  0 <= acc ->
  0 <= fold_left (fun a b => Z.lor (Z.shiftl a 8) (Z_of_byte b)) bs acc
    < (acc + 1) * 2 ^ (8 * Z.of_nat (length bs)).
Proof.
  revert acc. induction bs as [|b bs IH]; intros acc Hacc.
  - simpl. lia.
  - cbn [fold_left]. pose proof (Z_of_byte_range b) as Hb.
    set (acc' := Z.lor (Z.shiftl acc 8) (Z_of_byte b)).
    assert (Hsh : Z.shiftl acc 8 = acc * 256).
    { rewrite Z.shiftl_mul_pow2 by lia. reflexivity. }
    assert (H0 : 0 <= acc').
    { apply Z.lor_nonneg. lia. }
    assert (H1 : acc' <= acc * 256 + 255).
    { pose proof (Z.add_lor_land (Z.shiftl acc 8) (Z_of_byte b)) as Ha.
      assert (0 <= Z.land (Z.shiftl acc 8) (Z_of_byte b)).
      { apply Z.land_nonneg. lia. }
      fold acc' in Ha. lia. }
    specialize (IH acc' H0).
    replace (8 * Z.of_nat (length (b :: bs)))
      with (8 + 8 * Z.of_nat (length bs)) by (simpl length; lia).
    rewrite Z.pow_add_r by lia. change (2 ^ 8) with 256.
    assert (0 < 2 ^ (8 * Z.of_nat (length bs))) by (apply Z.pow_pos_nonneg; lia).
    nia.
Qed.

Lemma UintBE_range bs : 0 <= UintBE bs < 2 ^ (8 * Z.of_nat (length bs)).
Proof.
  unfold UintBE. pose proof (UintBE_fold_range bs 0 ltac:(lia)). lia.
Qed.

Lemma ReadFull_length n r l r' : ReadFull n r = Ok (l, r') -> length l = n.
Proof.
  unfold ReadFull. destruct n as [|n].
  - intros [= <- _]. reflexivity.
  - destruct r as [|b r]; [discriminate|].
    destruct (Nat.ltb_spec (length (b :: r)) (S n)); [discriminate|].
    intros [= <- _]. simpl in *. rewrite length_take. lia.
Qed.

(** Whatever [ReadVarInt] returns is a [uint64]. *)
Lemma ReadVarInt_range r x r' : ReadVarInt r = Ok (x, r') -> is_uint64 x.
Proof.
  unfold ReadVarInt, is_uint64.
  destruct (ReadFull 1 r) as [[d r1]|e] eqn:E1; [|discriminate].
  cbn [mbind result_bind].
  assert (Hn : forall n (f : Z -> bool), (n <= 8)%nat ->
    ('(b, r0) ← noEOF (ReadFull n r1);
       (if f (UintBE b) then Err ErrVarIntNotCanonical else Ok (UintBE b, r0)))
    = Ok (x, r') -> 0 <= x < 2 ^ 64).
  { intros n f Hle. destruct (ReadFull n r1) as [[b r0]|e] eqn:E; cbn.
    - apply ReadFull_length in E. destruct (f (UintBE b)); [discriminate|].
      intros [= <- _]. pose proof (UintBE_range b) as Hb.
      assert (2 ^ (8 * Z.of_nat (length b)) <= 2 ^ 64).
      { apply Z.pow_le_mono_r; lia. }
      lia.
    - destruct e; discriminate. }
  pose proof (Z_of_byte_range (hd Byte.x00 d)).
  destruct (_ <? 253).
  { intros [= <- _]. lia. }
  destruct (_ =? 253); [apply (Hn 2%nat (fun rv => rv <? 253)); lia|].
  destruct (_ =? 254); [apply (Hn 4%nat (fun rv => rv <=? 65535)); lia|].
  apply (Hn 8%nat (fun rv => rv <=? 4294967295)); lia.
Qed.

End VarIntRange.

Section StreamFacts.
Import tlv tlvstream.
Local Open Scope Z_scope.
Context {V : Type}.
Implicit Types (rs : list (TlvRecord V)) (p : TypeMap) (v : V) (r : reader).

(** More fuel never changes a result. *)
Lemma decode_fuel_mono fuel fuel' rs min ov p v r x :
  (fuel <= fuel')%nat ->
  decode fuel rs min ov p v r = Some x ->
  decode fuel' rs min ov p v r = Some x.
Proof.
  revert fuel' rs min ov p v r.
  induction fuel as [|fuel IH]; intros fuel' rs min ov p v r Hle; [discriminate|].
  destruct fuel' as [|fuel']; [lia|]. cbn [decode].
  destruct (ReadVarInt r) as [[t r1]|e]; [|auto].
  destruct (ov || (t <? min)); [auto|].
  destruct (ReadVarInt r1) as [[len r2]|e]; [|auto].
  destruct (getRecord t rs) as [[rec|] rs'].
  - destruct (decoder rec r2 len v) as [[v' r']|e]; [|auto].
    apply IH. lia.
  - destruct (Z.of_nat (length r2) <? len); [auto|]. apply IH. lia.
Qed.

(** One turn of the loop on a record the stream knows. *)
Lemma decode_step_known fuel rs rs' min p v v' t len rec payload rest :
  is_uint64 t -> is_uint64 len -> min <= t ->
  getRecord t rs = (Some rec, rs') ->
  decoder rec (payload ++ rest) len v = Ok (v', rest) ->
  decode (S fuel) rs min false p v
    (WriteVarInt t ++ WriteVarInt len ++ payload ++ rest)
  = decode fuel rs' (uint64 (t + 1)) (if t =? MaxUint64 then true else false)
      (<[t := None]> p) v' rest.
Proof.
  intros Ht Hlen Hmin Hget Hdec. cbn [decode].
  rewrite ReadVarInt_WriteVarInt by done.
  replace (t <? min) with false by (symmetry; apply Z.ltb_ge; lia).
  cbn [orb]. rewrite ReadVarInt_WriteVarInt by done.
  rewrite Hget, Hdec. reflexivity.
Qed.

(** The loop stops cleanly at the end of the input. *)
Lemma decode_end fuel rs min ov p v :
  decode (S fuel) rs min ov p v [] = Some (Ok (v, p)).
Proof. reflexivity. Qed.

(** A decoder that never hands back more input than it was given. *)
Definition shrinking (rec : TlvRecord V) : Prop :=
  forall r l v v' r', decoder rec r l v = Ok (v', r') ->
    (length r' <= length r)%nat.

Lemma getRecord_Forall (P : TlvRecord V -> Prop) t rs o rs' :
  Forall P rs -> getRecord t rs = (o, rs') ->
  Forall P rs' /\ (forall rec, o = Some rec -> P rec).
Proof.
  intros HP. revert o rs'. induction HP as [|rec rs Hrec HP IH]; intros o rs'.
  - intros [= <- <-]. split; [constructor|discriminate].
  - cbn [getRecord]. destruct (typ rec =? t).
    + intros [= <- <-]. split; [done|]. intros ? [= <-]. done.
    + destruct (typ rec <? t); [apply IH|].
      intros [= <- <-]. split; [by constructor|discriminate].
Qed.

(** With one unit of fuel per byte of input and one to spare, the loop
    never runs out. *)
Lemma decode_total fuel rs min ov p v r :
  Forall shrinking rs -> (length r < fuel)%nat ->
  decode fuel rs min ov p v r <> None.
Proof.
  revert rs min ov p v r.
  induction fuel as [|fuel IH]; intros rs min ov p v r Hrs Hlen; [lia|].
  cbn [decode].
  destruct (ReadVarInt r) as [[t r1]|e] eqn:E1; [|destruct e; discriminate].
  apply ReadVarInt_shrinks in E1.
  destruct (ov || (t <? min)); [discriminate|].
  destruct (ReadVarInt r1) as [[len r2]|e] eqn:E2; [|destruct e; discriminate].
  apply ReadVarInt_shrinks in E2.
  destruct (getRecord t rs) as [o rs'] eqn:Eg.
  destruct (getRecord_Forall _ _ _ _ _ Hrs Eg) as [Hrs' Ho].
  destruct o as [rec|].
  - destruct (decoder rec r2 len v) as [[v' r']|e] eqn:Ed;
      [|destruct e; discriminate].
    apply (Ho rec eq_refl) in Ed. apply IH; [done|lia].
  - destruct (Z.of_nat (length r2) <? len); [discriminate|].
    apply IH; [done|]. rewrite length_drop. lia.
Qed.

(** Types strictly ascending, as [NewStream] demands. *)
Fixpoint ascending rs : Prop :=
  match rs with
  | [] => True
  | rec :: rs' => Forall (fun rec' => typ rec < typ rec') rs' /\ ascending rs'
  end.

Lemma getRecord_ascending t rs o rs' :
  ascending rs -> getRecord t rs = (o, rs') ->
  ascending rs'
  /\ (forall t', t < t' -> t' ∈ typ <$> rs -> t' ∈ typ <$> rs')
  /\ (t ∈ typ <$> rs -> exists rec, o = Some rec).
Proof.
  revert o rs'. induction rs as [|rec rs IH]; intros o rs' Hasc.
  - intros [= <- <-]. split; [done|]. split; [done|].
    intros H. by apply elem_of_nil in H.
  - destruct Hasc as [Hlt Hasc]. cbn [getRecord].
    destruct (Z.eqb_spec (typ rec) t) as [Heq|Hne].
    + intros [= <- <-]. split; [done|]. split; [|by eexists].
      intros t' Ht'. rewrite fmap_cons, elem_of_cons. intros [->|H]; [lia|done].
    + destruct (Z.ltb_spec (typ rec) t) as [Hl|Hg].
      * intros Hget. destruct (IH _ _ Hasc Hget) as (Ha & Hk & Hf).
        split; [done|]. split.
        -- intros t' Ht'. rewrite fmap_cons, elem_of_cons.
           intros [->|H]; [lia|]. by apply Hk.
        -- rewrite fmap_cons, elem_of_cons. intros [->|H]; [done|]. by apply Hf.
      * intros [= <- <-]. split; [by split|]. split; [done|].
        rewrite fmap_cons, elem_of_cons. intros [->|H]; [done|].
        apply list_elem_of_fmap in H as (rec' & -> & Hin).
        rewrite Forall_forall in Hlt. apply Hlt in Hin. lia.
Qed.

(** A type the stream knows is never recorded with the bytes of an unknown
    record: its entry in the parsed types, if any, is nil. *)
Lemma decode_known_nil fuel rs min ov p v r v' p' t :
  ascending rs ->
  ov = true \/ t < min \/ t ∈ typ <$> rs ->
  p !! t = None \/ p !! t = Some None ->
  decode fuel rs min ov p v r = Some (Ok (v', p')) ->
  p' !! t = None \/ p' !! t = Some None.
Proof.
  revert rs min ov p v r.
  induction fuel as [|fuel IH]; intros rs min ov p v r Hasc Hinv Hp;
    [discriminate|].
  cbn [decode].
  destruct (ReadVarInt r) as [[t1 r1]|e] eqn:E1.
  2:{ destruct e; try discriminate. intros [= <- <-]. done. }
  apply ReadVarInt_range in E1. unfold is_uint64 in E1.
  destruct ov; [discriminate|]. cbn [orb].
  destruct (Z.ltb_spec t1 min) as [|Hmin]; [discriminate|].
  destruct (ReadVarInt r1) as [[len r2]|e] eqn:E2; [|destruct e; discriminate].
  destruct (getRecord t1 rs) as [o rs'] eqn:Eg.
  destruct (getRecord_ascending _ _ _ _ Hasc Eg) as (Hasc' & Hkeep & Hfound).
  assert (Hinv' : (if t1 =? MaxUint64 then true else false) = true
                  \/ t < uint64 (t1 + 1) \/ t ∈ typ <$> rs').
  { destruct (Z.eqb_spec t1 MaxUint64) as [|Hmax]; [by left|].
    unfold MaxUint64 in Hmax.
    rewrite (uint64_id (t1 + 1)) by (unfold is_uint64; lia).
    destruct (Z_le_gt_dec t t1) as [Hl|Hg]; [right; left; lia|].
    destruct Hinv as [|[|Hin]]; [discriminate|lia|].
    right. right. apply Hkeep; [lia|done]. }
  assert (Hnext : forall x,
    (t = t1 -> x = None) ->
    (<[t1 := x]> p) !! t = None \/ (<[t1 := x]> p) !! t = Some None).
  { intros x Hx. destruct (decide (t = t1)) as [->|Hne].
    - rewrite lookup_insert_eq, (Hx eq_refl). by right.
    - rewrite lookup_insert_ne by done. done. }
  destruct o as [rec|].
  - destruct (decoder rec r2 len v) as [[v1 r3]|e]; [|destruct e; discriminate].
    apply IH; [done|done|by apply Hnext].
  - destruct (Z.of_nat (length r2) <? len); [discriminate|].
    assert (Hne : t <> t1).
    { intros ->. destruct Hinv as [|[|Hin]]; [discriminate|lia|].
      destruct (Hfound Hin) as [? ?]. discriminate. }
    apply IH; [done|done|by apply Hnext].
Qed.

End StreamFacts.

(* ===================================================================== *)
(** ** Accounts: serialisation followed by deserialisation *)

Section AccountFacts.
Import tlv tlvstream accounts.
Local Open Scope Z_scope.

(** The order of the [range] loops: any enumeration of the map. *)
Variable rangeHashes : gset Hash -> list Hash.
Variable rangePayments : gmap Hash PaymentEntry -> list (Hash * PaymentEntry).
Hypothesis rangeHashes_perm : forall s, rangeHashes s ≡ₚ elements s.
Hypothesis rangePayments_perm : forall m, rangePayments m ≡ₚ map_to_list m.

(** What the Go types of the fields guarantee: the widths of the integers,
    nanoseconds below one second, and map lengths that fit an [int]. *)
Definition wf_account (a : OffChainBalanceAccount) : Prop :=
  is_uint8 (Type_ a)
  /\ is_uint64 (InitialBalance a)
  /\ is_int64 (CurrentBalance a)
  /\ time.wf (LastUpdate a)
  /\ time.wf (ExpirationDate a)
  /\ Z.of_nat (size (Invoices a)) < 2 ^ 63
  /\ Z.of_nat (size (Payments a)) < 2 ^ 63
  /\ map_Forall (fun _ e => is_int32 (Status e) /\ is_uint64 (FullAmount e))
       (Payments a).

(** The account as it comes back from the wire format. *)
Definition persisted (a : OffChainBalanceAccount) : OffChainBalanceAccount :=
  {| ID := ID a;
     Type_ := Type_ a;
     InitialBalance := InitialBalance a;
     CurrentBalance := CurrentBalance a;
     LastUpdate := time.Unix 0 (time.UnixNano (LastUpdate a));
     ExpirationDate :=
       if time.IsZero (ExpirationDate a) then time.zero
       else time.Unix 0 (time.UnixNano (ExpirationDate a));
     Invoices := Invoices a;
     Payments := persistedEntry <$> Payments a |}.

Lemma HashMapEncoder_length (s : gset Hash) :
  length (HashMapEncoder rangeHashes s)
  = (length (WriteVarInt (uint64 (Z.of_nat (size s)))) + 32 * size s)%nat.
Proof.
  unfold HashMapEncoder. rewrite length_app, hashes_length.
  rewrite (rangeHashes_perm s). reflexivity.
Qed.

Lemma PaymentEntryMapEncoder_length (m : gmap Hash PaymentEntry) :
  length (PaymentEntryMapEncoder rangePayments m)
  = (length (WriteVarInt (uint64 (Z.of_nat (size m)))) + 41 * size m)%nat.
Proof.
  unfold PaymentEntryMapEncoder. rewrite length_app.
  replace (map _ (rangePayments m)) with (map entryBytes (rangePayments m)).
  - rewrite entries_length, (rangePayments_perm m), length_map_to_list.
    reflexivity.
  - apply map_ext. intros [h e]. reflexivity.
Qed.

Lemma HashMapDecoder_HashMapEncoder (s : gset Hash) rest l :
  Z.of_nat (size s) < 2 ^ 64 ->
  HashMapDecoder (HashMapEncoder rangeHashes s ++ rest) l = Ok (s, rest).
Proof.
  intros Hsz. unfold HashMapDecoder, HashMapEncoder.
  rewrite uint64_id by (unfold is_uint64; lia).
  rewrite <- app_assoc, ReadVarInt_WriteVarInt by (unfold is_uint64; lia).
  cbn [mbind result_bind]. rewrite Nat2Z.id.
  replace (size s) with (length (rangeHashes s))
    by (rewrite (rangeHashes_perm s); reflexivity).
  rewrite HashMapDecoder_loop_app, (right_id_L ∅ (∪)).
  rewrite (rangeHashes_perm s), list_to_set_elements_L. reflexivity.
Qed.

Lemma PaymentEntryMapDecoder_PaymentEntryMapEncoder
    (m : gmap Hash PaymentEntry) rest l :
  Z.of_nat (size m) < 2 ^ 64 ->
  PaymentEntryMapDecoder (PaymentEntryMapEncoder rangePayments m ++ rest) l
  = Ok (persistedEntry <$> m, rest).
Proof.
  intros Hsz. unfold PaymentEntryMapDecoder, PaymentEntryMapEncoder.
  rewrite uint64_id by (unfold is_uint64; lia).
  rewrite <- app_assoc, ReadVarInt_WriteVarInt by (unfold is_uint64; lia).
  cbn [mbind result_bind]. rewrite Nat2Z.id.
  replace (size m) with (length (rangePayments m))
    by (rewrite (rangePayments_perm m); apply length_map_to_list).
  replace (map _ (rangePayments m)) with (map entryBytes (rangePayments m)).
  - apply entries_roundtrip, rangePayments_perm.
  - apply map_ext. intros [h e]. reflexivity.
Qed.


Lemma copy_array_vec n (v : vec byte n) : copy_array n (vec_to_list v) = v.
Proof. induction v as [|b n v IH]; simpl; [reflexivity|]. rewrite IH. reflexivity. Qed.

(** One turn of the decoding loop on a record written by the same record. *)
Lemma decode_step_record fuel (rs rs' : list (TlvRecord frame)) min p v0 v v' rec rest :
  0 <= typ rec < MaxUint64 -> is_uint64 (sizeFunc rec v) -> min <= typ rec ->
  getRecord (typ rec) rs = (Some rec, rs') ->
  decoder rec (encoder rec v ++ rest) (sizeFunc rec v) v0 = Ok (v', rest) ->
  decode (S fuel) rs min false p v0
    (WriteVarInt (typ rec) ++ WriteVarInt (sizeFunc rec v) ++ encoder rec v ++ rest)
  = decode fuel rs' (typ rec + 1) false (<[typ rec := None]> p) v' rest.
Proof.
  intros Ht Hs Hmin Hget Hdec. unfold MaxUint64 in Ht.
  rewrite (decode_step_known fuel rs rs' min p v0 v' (typ rec) _ rec _ rest);
    [|unfold is_uint64; lia|done|done|done|done].
  rewrite uint64_id by (unfold is_uint64; lia).
  replace (typ rec =? MaxUint64) with false; [reflexivity|].
  symmetry. apply Z.eqb_neq. unfold MaxUint64. lia.
Qed.


Lemma NewStream_serialize a :
  NewStream (serializeRecords rangeHashes rangePayments a)
  = Ok (serializeRecords rangeHashes rangePayments a).
Proof.
  unfold NewStream, serializeRecords.
  destruct (time.IsZero (ExpirationDate a)); reflexivity.
Qed.

Lemma NewStream_deserialize :
  NewStream (deserializeRecords rangeHashes rangePayments)
  = Ok (deserializeRecords rangeHashes rangePayments).
Proof. reflexivity. Qed.


Lemma dec_bytes t p (v v0 : frame) rest :
  let rec := MakePrimitiveRecord_bytes t p in
  decoder rec (encoder rec v ++ rest) (sizeFunc rec v) v0
  = Ok (store p (load p v) v0, rest).
Proof.
  cbn [decoder encoder sizeFunc MakePrimitiveRecord_bytes].
  rewrite DVarBytes_EVarBytes. reflexivity.
Qed.

Lemma dec_uint8 t p (v v0 : frame) rest :
  let rec := MakePrimitiveRecord_uint8 t p in
  is_uint8 (load p v) ->
  decoder rec (encoder rec v ++ rest) (sizeFunc rec v) v0
  = Ok (store p (load p v) v0, rest).
Proof.
  cbn [decoder encoder sizeFunc MakePrimitiveRecord_uint8]. intros H.
  rewrite DUint8_EUint8 by done. reflexivity.
Qed.

Lemma dec_uint64 t p (v v0 : frame) rest :
  let rec := MakePrimitiveRecord_uint64 t p in
  decoder rec (encoder rec v ++ rest) (sizeFunc rec v) v0
  = Ok (store p (load p v mod 2 ^ 64) v0, rest).
Proof.
  cbn [decoder encoder sizeFunc MakePrimitiveRecord_uint64].
  rewrite DUint64_EUint64T. reflexivity.
Qed.

Lemma dec_hashes t p (v v0 : frame) rest :
  let rec := newHashMapRecord rangeHashes t p in
  Z.of_nat (size (load p v)) < 2 ^ 64 ->
  decoder rec (encoder rec v ++ rest) (sizeFunc rec v) v0
  = Ok (store p (load p v) v0, rest).
Proof.
  cbn [decoder encoder sizeFunc newHashMapRecord MakeDynamicRecord]. intros H.
  rewrite HashMapDecoder_HashMapEncoder by done. reflexivity.
Qed.

Lemma dec_payments t p (v v0 : frame) rest :
  let rec := newPaymentEntryMapRecord rangePayments t p in
  Z.of_nat (size (load p v)) < 2 ^ 64 ->
  decoder rec (encoder rec v ++ rest) (sizeFunc rec v) v0
  = Ok (store p (persistedEntry <$> load p v) v0, rest).
Proof.
  cbn [decoder encoder sizeFunc newPaymentEntryMapRecord MakeDynamicRecord].
  intros H.
  rewrite PaymentEntryMapDecoder_PaymentEntryMapEncoder by done. reflexivity.
Qed.

Ltac account_fields Hz :=
  cbn [load store p_id p_accountType p_initialBalance p_currentBalance
       p_lastUpdate p_expirationDate p_invoices p_payments
       id accountType initialBalance currentBalance lastUpdate
       expirationDate invoices payments serializeFrame];
  rewrite ?Hz; cbn [negb];
  rewrite ?int64_uint64_mod, ?copy_array_vec;
  rewrite ?(int64_id (time.UnixNano _)) by apply UnixNano_range;
  f_equal;
  [ by apply uint8_id
  | unfold uint64; rewrite Z.mod_mod by lia; by apply uint64_id
  | by apply int64_id ].

Ltac decode_record lem :=
  erewrite decode_step_record;
  [ | by vm_compute | | by vm_compute | reflexivity | apply lem ].

Lemma serialize_decode (a : OffChainBalanceAccount) :
  wf_account a ->
  exists content,
    serializeAccount rangeHashes rangePayments (Some a) = Ok content
    /\ (8 <= length content)%nat
    /\ exists v p,
        decode 9 (deserializeRecords rangeHashes rangePayments) 0 false ∅
          zeroFrame content = Some (Ok (v, p))
        /\ p !! typeExpirationDate
           = (if time.IsZero (ExpirationDate a) then None else Some None)
        /\ buildAccount v p = persisted a.
Proof.
  intros (Hty & Hib & Hcb & Hlu & Hexp & Hinv & Hpay & Hent).
  unfold serializeAccount. rewrite NewStream_serialize. cbn [mbind result_bind].
  eexists. split; [reflexivity|].
  assert (Hid : is_uint64 (sizeFunc (MakePrimitiveRecord_bytes typeID p_id)
                             (serializeFrame a))).
  { cbn. rewrite length_vec_to_list. by vm_compute. }
  assert (Hsh : forall t, is_uint64 (sizeFunc
            (newHashMapRecord rangeHashes t p_invoices) (serializeFrame a))).
  { intros t. apply uint64_range. }
  assert (Hsp : forall t, is_uint64 (sizeFunc
            (newPaymentEntryMapRecord rangePayments t p_payments)
            (serializeFrame a))).
  { intros t. apply uint64_range. }
  unfold serializeRecords, Encode, deserializeRecords.
  split.
  { destruct (negb _); cbn [app map concat]; rewrite <- !app_assoc;
      rewrite !length_app; pose proof (WriteVarInt_length typeID);
      cbn [typ MakePrimitiveRecord_bytes encoder EVarBytes load p_id
           serializeFrame id]; rewrite length_vec_to_list; lia. }
  destruct (time.IsZero (ExpirationDate a)) eqn:Hz; cbn [negb app map concat];
    rewrite <- !app_assoc; do 2 eexists.
  - split; [|split].
    + decode_record dec_bytes; [|done].
      decode_record dec_uint8; [|by vm_compute|apply uint8_range].
      decode_record dec_uint64; [|by vm_compute].
      decode_record dec_uint64; [|by vm_compute].
      decode_record dec_uint64; [|by vm_compute].
      decode_record dec_hashes; [|done|cbn; lia].
      decode_record dec_payments; [|done|cbn; lia].
      reflexivity.
    + reflexivity.
    + unfold buildAccount, persisted. rewrite Hz.
      match goal with |- context [?m !! typeExpirationDate] =>
        replace (m !! typeExpirationDate) with (@None (option (list byte)))
          by reflexivity end.
      account_fields Hz.
  - split; [|split].
    + decode_record dec_bytes; [|done].
      decode_record dec_uint8; [|by vm_compute|apply uint8_range].
      decode_record dec_uint64; [|by vm_compute].
      decode_record dec_uint64; [|by vm_compute].
      decode_record dec_uint64; [|by vm_compute].
      decode_record dec_uint64; [|by vm_compute].
      decode_record dec_hashes; [|done|cbn; lia].
      decode_record dec_payments; [|done|cbn; lia].
      reflexivity.
    + reflexivity.
    + unfold buildAccount, persisted. rewrite Hz.
      match goal with |- context [?m !! typeExpirationDate] =>
        replace (m !! typeExpirationDate) with (Some (@None (list byte)))
          by reflexivity end.
      account_fields Hz.
Qed.


Lemma HashMapDecoder_loop_shrinks n acc r s r' :
  HashMapDecoder_loop n acc r = Ok (s, r') -> (length r' <= length r)%nat.
Proof.
  revert acc r. induction n as [|n IH]; intros acc r; cbn [HashMapDecoder_loop].
  - intros [= _ <-]. lia.
  - destruct (DBytes32 r 32) as [[h r1]|e] eqn:E; [|discriminate].
    cbn [mbind result_bind]. intros H. apply IH in H.
    apply DBytes32_shrinks in E. lia.
Qed.

Lemma PaymentEntryMapDecoder_loop_shrinks n acc r m r' :
  PaymentEntryMapDecoder_loop n acc r = Ok (m, r') ->
  (length r' <= length r)%nat.
Proof.
  revert acc r. induction n as [|n IH]; intros acc r;
    cbn [PaymentEntryMapDecoder_loop].
  - intros [= _ <-]. lia.
  - destruct (DBytes32 r 32) as [[h r1]|e] eqn:E; [|discriminate].
    cbn [mbind result_bind].
    destruct r1 as [|b r2]; [discriminate|]. cbn [Read1 mbind result_bind].
    destruct (DUint64 r2 8) as [[x r3]|e] eqn:E3; [|discriminate].
    cbn [mbind result_bind]. intros H. apply IH in H.
    apply DBytes32_shrinks in E. apply DUint64_shrinks in E3.
    simpl in E. lia.
Qed.

Lemma shrinking_bytes t p : shrinking (MakePrimitiveRecord_bytes (V:=frame) t p).
Proof.
  intros r l v v' r'. cbn [decoder MakePrimitiveRecord_bytes].
  destruct (DVarBytes r l) as [[x r1]|e] eqn:E; [|discriminate].
  cbn [mbind result_bind]. intros [= _ <-]. by apply DVarBytes_shrinks in E.
Qed.

Lemma shrinking_uint8 t p : shrinking (MakePrimitiveRecord_uint8 (V:=frame) t p).
Proof.
  intros r l v v' r'. cbn [decoder MakePrimitiveRecord_uint8].
  destruct (DUint8 r l) as [[x r1]|e] eqn:E; [|discriminate].
  cbn [mbind result_bind]. intros [= _ <-]. by apply DUint8_shrinks in E.
Qed.

Lemma shrinking_uint64 t p : shrinking (MakePrimitiveRecord_uint64 (V:=frame) t p).
Proof.
  intros r l v v' r'. cbn [decoder MakePrimitiveRecord_uint64].
  destruct (DUint64 r l) as [[x r1]|e] eqn:E; [|discriminate].
  cbn [mbind result_bind]. intros [= _ <-]. by apply DUint64_shrinks in E.
Qed.

Lemma shrinking_hashes t p : shrinking (newHashMapRecord rangeHashes t p).
Proof.
  intros r l v v' r'. cbn [decoder newHashMapRecord MakeDynamicRecord].
  unfold HashMapDecoder.
  destruct (ReadVarInt r) as [[n r1]|e] eqn:E; [|discriminate].
  cbn [mbind result_bind].
  destruct (HashMapDecoder_loop _ _ r1) as [[s r2]|e] eqn:E2; [|discriminate].
  cbn [mbind result_bind]. intros [= _ <-].
  apply ReadVarInt_shrinks in E. apply HashMapDecoder_loop_shrinks in E2. lia.
Qed.

Lemma shrinking_payments t p :
  shrinking (newPaymentEntryMapRecord rangePayments t p).
Proof.
  intros r l v v' r'. cbn [decoder newPaymentEntryMapRecord MakeDynamicRecord].
  unfold PaymentEntryMapDecoder.
  destruct (ReadVarInt r) as [[n r1]|e] eqn:E; [|discriminate].
  cbn [mbind result_bind].
  destruct (PaymentEntryMapDecoder_loop _ _ r1) as [[s r2]|e] eqn:E2;
    [|discriminate].
  cbn [mbind result_bind]. intros [= _ <-].
  apply ReadVarInt_shrinks in E.
  apply PaymentEntryMapDecoder_loop_shrinks in E2. lia.
Qed.

Lemma deserializeRecords_shrinking :
  Forall shrinking (deserializeRecords rangeHashes rangePayments).
Proof.
  unfold deserializeRecords.
  repeat first
    [ apply List.Forall_nil
    | apply List.Forall_cons;
      [ first [ apply shrinking_bytes | apply shrinking_uint8
              | apply shrinking_uint64 | apply shrinking_hashes
              | apply shrinking_payments ] | ] ].
Qed.

(** The decoding loop of [deserializeAccount] never runs out of fuel:
    the function returns on every input. *)
Lemma deserializeAccount_total content :
  deserializeAccount rangeHashes rangePayments content <> None.
Proof.
  unfold deserializeAccount. rewrite NewStream_deserialize.
  unfold DecodeWithParsedTypes.
  pose proof (decode_total (S (length content))
    (deserializeRecords rangeHashes rangePayments) 0 false ∅ zeroFrame content
    deserializeRecords_shrinking ltac:(lia)) as H.
  destruct (decode _ _ _ _ _ _ _) as [[[v p]|e]|]; done.
Qed.

(** Decoding the output of [serializeAccount]: the variables and the parsed
    types the loop of [deserializeAccount] ends with. *)
Lemma decode_serialize (a : OffChainBalanceAccount) :
  wf_account a ->
  exists content v p,
    serializeAccount rangeHashes rangePayments (Some a) = Ok content
    /\ DecodeWithParsedTypes (deserializeRecords rangeHashes rangePayments)
         zeroFrame content = Some (Ok (v, p))
    /\ p !! typeExpirationDate
       = (if time.IsZero (ExpirationDate a) then None else Some None)
    /\ buildAccount v p = persisted a.
Proof.
  intros Hwf.
  destruct (serialize_decode a Hwf)
    as (content & Hser & Hlen & v & p & Hdec & Hp & Hb).
  exists content, v, p. split; [done|]. split; [|done].
  unfold DecodeWithParsedTypes.
  apply (decode_fuel_mono 9 (S (length content))); [lia|done].
Qed.

(** [deserializeAccount] applied to the output of [serializeAccount]. *)
Lemma deserialize_serialize (a : OffChainBalanceAccount) :
  wf_account a ->
  exists content,
    serializeAccount rangeHashes rangePayments (Some a) = Ok content
    /\ deserializeAccount rangeHashes rangePayments content
       = Some (Ok (persisted a)).
Proof.
  intros Hwf.
  destruct (decode_serialize a Hwf) as (content & v & p & Hser & Hdec & _ & Hb).
  exists content. split; [done|].
  unfold deserializeAccount. rewrite NewStream_deserialize, Hdec, Hb.
  reflexivity.
Qed.

Lemma persisted_payments_id (m : gmap Hash PaymentEntry) :
  map_Forall (fun _ e => is_int32 (Status e) /\ is_uint64 (FullAmount e)) m ->
  map_Forall (fun _ e => status_fits e) m ->
  persistedEntry <$> m = m.
Proof.
  intros Hty Hst. rewrite <- (map_fmap_id m) at 2.
  apply map_fmap_ext. intros h e He.
  apply persistedEntry_id; [by apply (Hst h)|by apply (Hty h e He)].
Qed.

Lemma deserializeRecords_ascending :
  ascending (deserializeRecords rangeHashes rangePayments).
Proof.
  unfold deserializeRecords. cbn [ascending].
  repeat split; repeat first [apply List.Forall_nil | apply List.Forall_cons];
    by vm_compute.
Qed.

(** C1 (amended): for every account whose last update is an instant that
    Unix nanoseconds in an [int64] can represent, whose expiration date is
    zero or such an instant, and whose payment statuses fit the byte they are
    stored in, [deserializeAccount] applied to the output of
    [serializeAccount] returns an account with the same ID, Type,
    InitialBalance, CurrentBalance, LastUpdate, ExpirationDate, Invoices and
    Payments. *)
Theorem serialize_deserialize_account (a : OffChainBalanceAccount) :
  wf_account a ->
  time.nano_representable (LastUpdate a) ->
  time.IsZero (ExpirationDate a) = true
    \/ time.nano_representable (ExpirationDate a) ->
  map_Forall (fun _ e => status_fits e) (Payments a) ->
  exists content a',
    serializeAccount rangeHashes rangePayments (Some a) = Ok content
    /\ deserializeAccount rangeHashes rangePayments content = Some (Ok a')
    /\ ID a' = ID a
    /\ Type_ a' = Type_ a
    /\ InitialBalance a' = InitialBalance a
    /\ CurrentBalance a' = CurrentBalance a
    /\ LastUpdate a' = LastUpdate a
    /\ ExpirationDate a' = ExpirationDate a
    /\ Invoices a' = Invoices a
    /\ Payments a' = Payments a.
Proof.
  intros Hwf Hlast Hexp Hst.
  destruct (deserialize_serialize a Hwf) as (content & Hser & Hdes).
  exists content, (persisted a). split; [done|]. split; [done|].
  destruct Hwf as (_ & _ & _ & Hwfl & Hwfe & _ & _ & Hent).
  unfold persisted. cbn [ID Type_ InitialBalance CurrentBalance LastUpdate
                         ExpirationDate Invoices Payments].
  repeat split.
  - by apply Unix_UnixNano.
  - destruct (time.IsZero (ExpirationDate a)) eqn:Hz.
    + symmetry. by apply IsZero_true.
    + destruct Hexp as [|Hrep]; [discriminate|]. by apply Unix_UnixNano.
  - by apply persisted_payments_id.
Qed.

(** C2: [serializeAccount] puts the expiration-date record in its stream
    exactly when the expiration date is not zero; whenever
    [deserializeAccount] decodes a stream, the account it returns has the zero
    expiration date exactly when the record was absent from the parsed types;
    and when the stream is the serialisation of an account, the record is
    absent from the parsed types, and the expiration date read back is zero,
    exactly when the expiration date of that account is zero. *)
Theorem expiration_record_iff_set :
  (forall a,
     typeExpirationDate ∈ typ <$> serializeRecords rangeHashes rangePayments a
     <-> time.IsZero (ExpirationDate a) = false)
  /\ (forall content v p,
        DecodeWithParsedTypes (deserializeRecords rangeHashes rangePayments)
          zeroFrame content = Some (Ok (v, p)) ->
        deserializeAccount rangeHashes rangePayments content
          = Some (Ok (buildAccount v p))
        /\ (time.IsZero (ExpirationDate (buildAccount v p)) = true
            <-> p !! typeExpirationDate = None))
  /\ (forall a, wf_account a ->
        exists content v p,
          serializeAccount rangeHashes rangePayments (Some a) = Ok content
          /\ DecodeWithParsedTypes
               (deserializeRecords rangeHashes rangePayments)
               zeroFrame content = Some (Ok (v, p))
          /\ (p !! typeExpirationDate = None
              <-> time.IsZero (ExpirationDate a) = true)
          /\ deserializeAccount rangeHashes rangePayments content
             = Some (Ok (buildAccount v p))
          /\ time.IsZero (ExpirationDate (buildAccount v p))
             = time.IsZero (ExpirationDate a)).
Proof.
  split; [|split].
  - intros a. unfold serializeRecords.
    destruct (time.IsZero (ExpirationDate a)); cbn [negb app fmap list_fmap typ
      MakePrimitiveRecord_bytes MakePrimitiveRecord_uint8
      MakePrimitiveRecord_uint64 newHashMapRecord newPaymentEntryMapRecord
      MakeDynamicRecord].
    + split; [|discriminate]. intros H.
      repeat (apply elem_of_cons in H as [H|H]; [by vm_compute in H|]).
      by apply elem_of_nil in H.
    + split; [done|]. intros _.
      do 5 apply list_elem_of_further. apply list_elem_of_here.
  - intros content v p Hdec. split.
    + unfold deserializeAccount. rewrite NewStream_deserialize, Hdec.
      reflexivity.
    + unfold DecodeWithParsedTypes in Hdec.
      assert (Hk : p !! typeExpirationDate = None
                   \/ p !! typeExpirationDate = Some None).
      { eapply decode_known_nil; [apply deserializeRecords_ascending| | |exact Hdec].
        - right. right. unfold deserializeRecords.
          cbn [fmap list_fmap typ MakePrimitiveRecord_bytes
               MakePrimitiveRecord_uint8 MakePrimitiveRecord_uint64
               newHashMapRecord newPaymentEntryMapRecord MakeDynamicRecord].
          do 5 apply list_elem_of_further. apply list_elem_of_here.
        - left. apply lookup_empty. }
      unfold buildAccount. cbn [ExpirationDate].
      destruct Hk as [-> | ->].
      * split; reflexivity || done.
      * rewrite IsZero_Unix by apply int64_range. split; discriminate.
  - intros a Hwf.
    destruct (decode_serialize a Hwf) as (content & v & p & Hser & Hdec & Hp & Hb).
    exists content, v, p. split; [done|]. split; [done|]. split; [|split].
    + rewrite Hp. destruct (time.IsZero (ExpirationDate a)); split; done.
    + unfold deserializeAccount. rewrite NewStream_deserialize, Hdec.
      reflexivity.
    + rewrite Hb. unfold persisted. cbn [ExpirationDate].
      destruct (time.IsZero (ExpirationDate a)) eqn:Hz; [reflexivity|].
      apply IsZero_Unix, UnixNano_range.
Qed.

(** C3: the bytes the two map encoders write are the count prefix (a varint
    of 1, 3, 5 or 9 bytes) followed by 32, respectively 41, bytes per entry,
    whereas the [recordSize] closures return 32, respectively 41, times the
    number of entries: the encoders always write more than [recordSize]
    announces. *)
Theorem recordSize_omits_count_prefix :
  (forall s : gset Hash,
     Z.of_nat (size s) * 32 < 2 ^ 64 ->
     hashMapRecordSize s = Z.of_nat (size s) * 32
     /\ Z.of_nat (length (HashMapEncoder rangeHashes s))
        = hashMapRecordSize s
          + Z.of_nat (length (WriteVarInt (Z.of_nat (size s))))
     /\ hashMapRecordSize s < Z.of_nat (length (HashMapEncoder rangeHashes s)))
  /\ (forall m : gmap Hash PaymentEntry,
        Z.of_nat (size m) * 41 < 2 ^ 64 ->
        paymentEntryMapRecordSize m = Z.of_nat (size m) * 41
        /\ Z.of_nat (length (PaymentEntryMapEncoder rangePayments m))
           = paymentEntryMapRecordSize m
             + Z.of_nat (length (WriteVarInt (Z.of_nat (size m))))
        /\ paymentEntryMapRecordSize m
           < Z.of_nat (length (PaymentEntryMapEncoder rangePayments m))).
Proof.
  split.
  - intros s Hs. unfold hashMapRecordSize, HashSize.
    rewrite uint64_id by (unfold is_uint64; lia).
    rewrite HashMapEncoder_length, uint64_id by (unfold is_uint64; lia).
    pose proof (WriteVarInt_length (Z.of_nat (size s))). lia.
  - intros m Hm. unfold paymentEntryMapRecordSize, HashSize.
    rewrite uint64_id by (unfold is_uint64; lia).
    rewrite PaymentEntryMapEncoder_length, uint64_id by (unfold is_uint64; lia).
    pose proof (WriteVarInt_length (Z.of_nat (size m))). lia.
Qed.

(** C4: decoding what [HashMapEncoder] wrote gives back the set of hashes,
    and decoding what [PaymentEntryMapEncoder] wrote gives back the map of
    payment entries when every status lies in [0, 255]. *)
Theorem map_codecs_roundtrip :
  (forall (s : gset Hash) l,
     Z.of_nat (size s) < 2 ^ 63 ->
     HashMapDecoder (HashMapEncoder rangeHashes s) l = Ok (s, []))
  /\ (forall (m : gmap Hash PaymentEntry) l,
        Z.of_nat (size m) < 2 ^ 63 ->
        map_Forall (fun _ e => is_int32 (Status e) /\ is_uint64 (FullAmount e)) m ->
        map_Forall (fun _ e => 0 <= Status e <= 255) m ->
        PaymentEntryMapDecoder (PaymentEntryMapEncoder rangePayments m) l
        = Ok (m, [])).
Proof.
  split.
  - intros s l Hs.
    rewrite <- (app_nil_r (HashMapEncoder rangeHashes s)).
    apply HashMapDecoder_HashMapEncoder. lia.
  - intros m l Hm Hty Hst.
    rewrite <- (app_nil_r (PaymentEntryMapEncoder rangePayments m)).
    rewrite PaymentEntryMapDecoder_PaymentEntryMapEncoder by lia.
    rewrite persisted_payments_id by done. reflexivity.
Qed.

(** C5: the cast of [CurrentBalance] to [uint64] and back to [int64] is the
    identity on every [int64], negative ones included, and the balance of an
    account read back from its serialisation is the original one. *)
Theorem current_balance_preserved :
  (forall x, is_int64 x -> int64 (uint64 x) = x)
  /\ (forall a, wf_account a ->
        exists content a',
          serializeAccount rangeHashes rangePayments (Some a) = Ok content
          /\ deserializeAccount rangeHashes rangePayments content = Some (Ok a')
          /\ currentBalance (serializeFrame a) = uint64 (CurrentBalance a)
          /\ CurrentBalance a' = CurrentBalance a).
Proof.
  split; [apply int64_uint64|].
  intros a Hwf.
  destruct (deserialize_serialize a Hwf) as (content & Hser & Hdes).
  exists content, (persisted a). done.
Qed.

End AccountFacts.

(* ===================================================================== *)
(** ** Concrete accounts *)

Section AccountExamples.
Import tlv tlvstream accounts.
Local Open Scope Z_scope.

Definition hashA : Hash := copy_array 32 [Byte.x01; Byte.x02].
Definition hashB : Hash := copy_array 32 [Byte.x03].

(** An account with a negative balance, an expiration date in 2033, one
    invoice and one payment in flight. *)
Definition sampleAccount : OffChainBalanceAccount :=
  {| ID := copy_array 8 [Byte.x0a; Byte.x0b];
     Type_ := 0;
     InitialBalance := 1000;
     CurrentBalance := -5;
     LastUpdate := time.Unix 1700000000 5;
     ExpirationDate := time.Unix 2000000000 0;
     Invoices := {[ hashA ]};
     Payments := {[ hashB := MkPaymentEntry 1 77 ]} |}.

(** The same account expiring on 1 January 2300, beyond what Unix
    nanoseconds in an [int64] reach. *)
Definition farAccount : OffChainBalanceAccount :=
  {| ID := copy_array 8 [Byte.x0a; Byte.x0b];
     Type_ := 0;
     InitialBalance := 1000;
     CurrentBalance := -5;
     LastUpdate := time.Unix 1700000000 5;
     ExpirationDate := time.Unix 10413792000 0;
     Invoices := ∅;
     Payments := ∅ |}.

(** An account with a payment whose status does not fit one byte. *)
Definition wideStatusAccount : OffChainBalanceAccount :=
  {| ID := copy_array 8 [Byte.x0a; Byte.x0b];
     Type_ := 0;
     InitialBalance := 1000;
     CurrentBalance := 1000;
     LastUpdate := time.Unix 1700000000 5;
     ExpirationDate := time.zero;
     Invoices := ∅;
     Payments := {[ hashB := MkPaymentEntry 256 77 ]} |}.

(** An account whose [LastUpdate] was never set: the zero [time.Time], in
    year 1. *)
Definition neverUpdatedAccount : OffChainBalanceAccount :=
  {| ID := copy_array 8 [Byte.x0a; Byte.x0b];
     Type_ := 0;
     InitialBalance := 1000;
     CurrentBalance := 1000;
     LastUpdate := time.zero;
     ExpirationDate := time.zero;
     Invoices := ∅;
     Payments := ∅ |}.

Lemma elements_perm (s : gset Hash) : elements s ≡ₚ elements s.
Proof. reflexivity. Qed.

Lemma map_to_list_perm (m : gmap Hash PaymentEntry) :
  map_to_list m ≡ₚ map_to_list m.
Proof. reflexivity. Qed.

Lemma sampleAccount_wf : wf_account sampleAccount.
Proof.
  unfold wf_account, sampleAccount.
  cbn [Type_ InitialBalance CurrentBalance LastUpdate ExpirationDate
       Invoices Payments].
  rewrite size_singleton, map_size_singleton.
  do 7 (split; [by vm_compute|]).
  apply map_Forall_singleton. by vm_compute.
Qed.

Lemma farAccount_wf : wf_account farAccount.
Proof.
  unfold wf_account, farAccount.
  cbn [Type_ InitialBalance CurrentBalance LastUpdate ExpirationDate
       Invoices Payments].
  rewrite size_empty, map_size_empty.
  do 7 (split; [by vm_compute|]).
  apply map_Forall_empty.
Qed.

Lemma wideStatusAccount_wf : wf_account wideStatusAccount.
Proof.
  unfold wf_account, wideStatusAccount.
  cbn [Type_ InitialBalance CurrentBalance LastUpdate ExpirationDate
       Invoices Payments].
  rewrite size_empty, map_size_singleton.
  do 7 (split; [by vm_compute|]).
  apply map_Forall_singleton. by vm_compute.
Qed.

Lemma neverUpdatedAccount_wf : wf_account neverUpdatedAccount.
Proof.
  unfold wf_account, neverUpdatedAccount.
  cbn [Type_ InitialBalance CurrentBalance LastUpdate ExpirationDate
       Invoices Payments].
  rewrite size_empty, map_size_empty.
  do 7 (split; [by vm_compute|]).
  apply map_Forall_empty.
Qed.

Lemma serialize_deserialize_account_witness :
  exists content a',
    serializeAccount elements map_to_list (Some sampleAccount) = Ok content
    /\ deserializeAccount elements map_to_list content = Some (Ok a')
    /\ ID a' = ID sampleAccount
    /\ Type_ a' = Type_ sampleAccount
    /\ InitialBalance a' = InitialBalance sampleAccount
    /\ CurrentBalance a' = CurrentBalance sampleAccount
    /\ LastUpdate a' = LastUpdate sampleAccount
    /\ ExpirationDate a' = ExpirationDate sampleAccount
    /\ Invoices a' = Invoices sampleAccount
    /\ Payments a' = Payments sampleAccount.
Proof.
  apply (serialize_deserialize_account elements map_to_list
           elements_perm map_to_list_perm sampleAccount sampleAccount_wf).
  - by vm_compute.
  - right. by vm_compute.
  - apply map_Forall_singleton. by vm_compute.
Defined.

(** C1 as stated fails: the expiration date of an account expiring in 2300
    comes back as another instant, a payment status of 256 comes back as 0,
    and a last update that was never set (the zero time) comes back as an
    instant in 1754. *)
Lemma serialize_deserialize_not_all_accounts :
  (wf_account farAccount
   /\ exists content a',
       serializeAccount elements map_to_list (Some farAccount) = Ok content
       /\ deserializeAccount elements map_to_list content = Some (Ok a')
       /\ ExpirationDate a' <> ExpirationDate farAccount)
  /\ (wf_account wideStatusAccount
      /\ exists content a',
          serializeAccount elements map_to_list (Some wideStatusAccount)
            = Ok content
          /\ deserializeAccount elements map_to_list content = Some (Ok a')
          /\ Payments a' !! hashB = Some (MkPaymentEntry 0 77)
          /\ Payments wideStatusAccount !! hashB
             = Some (MkPaymentEntry 256 77))
  /\ (wf_account neverUpdatedAccount
      /\ exists content a',
          serializeAccount elements map_to_list (Some neverUpdatedAccount)
            = Ok content
          /\ deserializeAccount elements map_to_list content = Some (Ok a')
          /\ LastUpdate neverUpdatedAccount = time.zero
          /\ LastUpdate a' = time.Unix (-6795364579) 128654848
          /\ LastUpdate a' <> LastUpdate neverUpdatedAccount).
Proof.
  split; [|split];
    (split; [first [apply farAccount_wf | apply wideStatusAccount_wf
                   | apply neverUpdatedAccount_wf]|]).
  - eexists. eexists. split; [by vm_compute|]. split; [by vm_compute|].
    by vm_compute.
  - eexists. eexists. split; [by vm_compute|]. split; [by vm_compute|].
    split; by vm_compute.
  - eexists. eexists. split; [by vm_compute|]. split; [by vm_compute|].
    split; [reflexivity|]. split; by vm_compute.
Qed.


Lemma expiration_record_iff_set_witness :
  (time.IsZero (ExpirationDate sampleAccount) = false
   /\ typeExpirationDate
        ∈ typ <$> serializeRecords elements map_to_list sampleAccount)
  /\ (time.IsZero (ExpirationDate wideStatusAccount) = true
      /\ typeExpirationDate
           ∉ typ <$> serializeRecords elements map_to_list wideStatusAccount)
  /\ exists content v p,
       serializeAccount elements map_to_list (Some wideStatusAccount)
         = Ok content
       /\ DecodeWithParsedTypes (deserializeRecords elements map_to_list)
            zeroFrame content = Some (Ok (v, p))
       /\ (p !! typeExpirationDate = None
           <-> time.IsZero (ExpirationDate wideStatusAccount) = true)
       /\ deserializeAccount elements map_to_list content
          = Some (Ok (buildAccount v p))
       /\ time.IsZero (ExpirationDate (buildAccount v p))
          = time.IsZero (ExpirationDate wideStatusAccount).
Proof.
  destruct (expiration_record_iff_set elements map_to_list
              elements_perm map_to_list_perm) as (Hrec & _ & Hback).
  split; [|split].
  - split; [reflexivity|]. apply Hrec. reflexivity.
  - split; [reflexivity|]. intros Hin. apply Hrec in Hin. discriminate.
  - apply Hback, wideStatusAccount_wf.
Defined.

Lemma recordSize_omits_count_prefix_witness :
  (hashMapRecordSize (Invoices sampleAccount) = 32
   /\ Z.of_nat (length (HashMapEncoder elements (Invoices sampleAccount))) = 33)
  /\ (paymentEntryMapRecordSize (Payments sampleAccount) = 41
      /\ Z.of_nat (length (PaymentEntryMapEncoder map_to_list
                             (Payments sampleAccount))) = 42)
  /\ (hashMapRecordSize ∅ = 0
      /\ Z.of_nat (length (HashMapEncoder elements ∅)) = 1).
Proof.
  destruct (recordSize_omits_count_prefix elements map_to_list
              elements_perm map_to_list_perm) as (Hh & Hp).
  split; [|split].
  - destruct (Hh (Invoices sampleAccount)) as (H1 & H2 & _); [by vm_compute|].
    rewrite H2, H1. split; by vm_compute.
  - destruct (Hp (Payments sampleAccount)) as (H1 & H2 & _); [by vm_compute|].
    rewrite H2, H1. split; by vm_compute.
  - destruct (Hh ∅) as (H1 & H2 & _); [by vm_compute|].
    rewrite H2, H1. split; by vm_compute.
Defined.

Lemma map_codecs_roundtrip_witness :
  HashMapDecoder (HashMapEncoder elements (Invoices sampleAccount)) 32
    = Ok (Invoices sampleAccount, [])
  /\ PaymentEntryMapDecoder
       (PaymentEntryMapEncoder map_to_list (Payments sampleAccount)) 41
     = Ok (Payments sampleAccount, []).
Proof.
  destruct (map_codecs_roundtrip elements map_to_list
              elements_perm map_to_list_perm) as (Hh & Hp).
  split.
  - apply Hh. by vm_compute.
  - apply Hp.
    + by vm_compute.
    + apply map_Forall_singleton. by vm_compute.
    + apply map_Forall_singleton. by vm_compute.
Defined.

Lemma current_balance_preserved_witness :
  CurrentBalance sampleAccount = -5
  /\ int64 (uint64 (-5)) = -5
  /\ exists content a',
       serializeAccount elements map_to_list (Some sampleAccount) = Ok content
       /\ deserializeAccount elements map_to_list content = Some (Ok a')
       /\ currentBalance (serializeFrame sampleAccount) = uint64 (-5)
       /\ CurrentBalance a' = -5.
Proof.
  destruct (current_balance_preserved elements map_to_list
              elements_perm map_to_list_perm) as (Hcast & Hacc).
  split; [reflexivity|]. split.
  - apply Hcast. by vm_compute.
  - apply (Hacc sampleAccount), sampleAccount_wf.
Defined.

End AccountExamples.

(* ===================================================================== *)
(** ** The numeric codec *)

Section NumericCodec.
Import firewalldb.
Local Open Scope Z_scope.

Lemma nat_of_digit d : 0 <= d < 10 -> nat_of_ascii (digit d) = (48 + Z.to_nat d)%nat.
Proof. intros Hd. unfold digit. apply nat_ascii_embedding. lia. Qed.

Lemma is_digit_digit d : 0 <= d < 10 -> is_digit (digit d) = true.
Proof.
  intros Hd. unfold is_digit. rewrite nat_of_digit by done.
  apply andb_true_intro. split; apply Nat.leb_le; lia.
Qed.

Lemma digit_value_digit d : 0 <= d < 10 -> digit_value (digit d) = d.
Proof. intros Hd. unfold digit_value. rewrite nat_of_digit by done. lia. Qed.

Lemma digit_digit_value c : is_digit c = true -> digit (digit_value c) = c.
Proof.
  unfold is_digit, digit, digit_value. intros [H1 H2]%andb_prop.
  apply Nat.leb_le in H1, H2.
  replace (48 + Z.to_nat (Z.of_nat (nat_of_ascii c) - 48))%nat
    with (nat_of_ascii c) by lia.
  apply ascii_nat_embedding.
Qed.

Lemma digit_value_range c : is_digit c = true -> 0 <= digit_value c < 10.
Proof.
  unfold is_digit, digit_value. intros [H1 H2]%andb_prop.
  apply Nat.leb_le in H1, H2. lia.
Qed.

Lemma decimal_length n u : length (decimal n u) = n.
Proof.
  revert u. induction n as [|n IH]; intros u; [reflexivity|].
  cbn [decimal]. rewrite length_app, IH. simpl. lia.
Qed.

Lemma decimal_digits n u : forallb is_digit (decimal n u) = true.
Proof.
  revert u. induction n as [|n IH]; intros u; [reflexivity|].
  cbn [decimal]. rewrite forallb_app, IH. cbn [forallb andb].
  rewrite is_digit_digit; [reflexivity|]. apply Z.mod_pos_bound. lia.
Qed.

Lemma decimal_value_snoc l c :
  decimal_value (l ++ [c]) = decimal_value l * 10 + digit_value c.
Proof. unfold decimal_value. rewrite fold_left_app. reflexivity. Qed.

(** The digits of [u] read back as [u] modulo [10^n]. *)
Lemma decimal_value_decimal n u :
  decimal_value (decimal n u) = u mod 10 ^ Z.of_nat n.
Proof.
  revert u. induction n as [|n IH]; intros u.
  - simpl. rewrite Z.mod_1_r. reflexivity.
  - cbn [decimal]. rewrite decimal_value_snoc, IH.
    rewrite digit_value_digit by (apply Z.mod_pos_bound; lia).
    rewrite Nat2Z.inj_succ, Z.pow_succ_r by lia.
    rewrite (Z.rem_mul_r u 10 (10 ^ Z.of_nat n)) by lia. lia.
Qed.

(** A string of [n] decimal digits is the [n]-digit rendering of its
    value. *)
Lemma decimal_decimal_value l :
  forallb is_digit l = true -> decimal (length l) (decimal_value l) = l.
Proof.
  induction l as [|c l IH] using rev_ind; [reflexivity|].
  rewrite forallb_app. cbn [forallb]. rewrite Bool.andb_true_r.
  intros [Hl Hc]%andb_prop.
  rewrite length_app, Nat.add_comm. cbn [length Nat.add decimal].
  rewrite decimal_value_snoc.
  pose proof (digit_value_range c Hc) as Hr.
  replace ((decimal_value l * 10 + digit_value c) / 10) with (decimal_value l).
  - replace ((decimal_value l * 10 + digit_value c) mod 10)
      with (digit_value c).
    + rewrite IH, digit_digit_value by done. reflexivity.
    + apply (Z.mod_unique _ _ (decimal_value l)); lia.
  - apply (Z.div_unique _ _ _ (digit_value c)); lia.
Qed.

Lemma decimal_value_nonneg l :
  forallb is_digit l = true -> 0 <= decimal_value l.
Proof.
  induction l as [|c l IH] using rev_ind; [intros _; by vm_compute|].
  rewrite forallb_app. cbn [forallb]. rewrite Bool.andb_true_r.
  intros [Hl Hc]%andb_prop. rewrite decimal_value_snoc.
  pose proof (digit_value_range c Hc). specialize (IH Hl). lia.
Qed.

Lemma list_ascii_length s :
  length (String.list_ascii_of_string s) = String.length s.
Proof. induction s as [|c s IH]; simpl; congruence. Qed.

(** C6: decoding the encoding of any [uint64] gives the value back. *)
Theorem StrToUint64_Uint64ToStr u :
  0 <= u < 2 ^ 64 -> StrToUint64 (Uint64ToStr u) = Ok u.
Proof.
  intros Hu. unfold StrToUint64, Uint64ToStr.
  rewrite String.list_ascii_of_string_of_list_ascii.
  rewrite decimal_length, Nat.eqb_refl, decimal_digits. cbn [negb].
  rewrite decimal_value_decimal.
  rewrite Z.mod_small by (unfold uint64StrWidth; simpl; lia).
  replace (u <? 2 ^ 64) with true by (symmetry; apply Z.ltb_lt; lia).
  reflexivity.
Qed.

(** C7: decoding fails, with the format error, on every string that is not
    of the fixed width or holds a character that is not a decimal digit; and
    whenever it succeeds, its input is the fixed-width encoding of the
    [uint64] it returns. *)
Theorem StrToUint64_rejects_malformed :
  (forall s, String.length s <> uint64StrWidth ->
     StrToUint64 s = Err ErrFormat)
  /\ (forall s c, In c (String.list_ascii_of_string s) -> is_digit c = false ->
        StrToUint64 s = Err ErrFormat)
  /\ (forall s e, StrToUint64 s = Err e -> e = ErrFormat)
  /\ (forall s u, StrToUint64 s = Ok u ->
        String.length s = uint64StrWidth
        /\ forallb is_digit (String.list_ascii_of_string s) = true
        /\ 0 <= u < 2 ^ 64
        /\ s = Uint64ToStr u).
Proof.
  unfold StrToUint64. repeat split.
  - intros s Hlen. rewrite list_ascii_length.
    replace (String.length s =? uint64StrWidth)%nat with false; [reflexivity|].
    symmetry. by apply Nat.eqb_neq.
  - intros s c Hin Hc.
    destruct (negb (length _ =? _)%nat); [reflexivity|].
    replace (forallb is_digit (String.list_ascii_of_string s)) with false;
      [reflexivity|].
    symmetry. apply Bool.not_true_is_false. intros Hall.
    rewrite forallb_forall in Hall. rewrite (Hall c Hin) in Hc. discriminate.
  - intros s e.
    repeat match goal with |- context [if ?b then _ else _] => destruct b end;
      congruence.
  - revert H. rewrite list_ascii_length.
    destruct (Nat.eqb_spec (String.length s) uint64StrWidth); [done|discriminate].
  - revert H.
    destruct (negb (length _ =? _)%nat); [discriminate|].
    destruct (forallb is_digit _); [done|discriminate].
  - revert H.
    destruct (negb (length _ =? _)%nat); [discriminate|].
    destruct (forallb is_digit _) eqn:Hd; [|discriminate]. cbn [negb].
    destruct (_ <? _); [|discriminate]. intros [= <-].
    by apply decimal_value_nonneg.
  - revert H.
    destruct (negb (length _ =? _)%nat); [discriminate|].
    destruct (forallb is_digit _); [|discriminate]. cbn [negb].
    destruct (Z.ltb_spec (decimal_value (String.list_ascii_of_string s)) (2 ^ 64));
      [|discriminate].
    intros [= <-]. done.
  - revert H.
    destruct (Nat.eqb_spec (length (String.list_ascii_of_string s)) uint64StrWidth)
      as [Hlen|]; [|discriminate]. cbn [negb].
    destruct (forallb is_digit _) eqn:Hd; [|discriminate]. cbn [negb].
    destruct (_ <? _); [|discriminate]. intros [= <-].
    unfold Uint64ToStr. rewrite <- Hlen, decimal_decimal_value by done.
    symmetry. apply String.string_of_list_ascii_of_string.
Qed.

Lemma StrToUint64_Uint64ToStr_witness :
  StrToUint64 (Uint64ToStr 18446744073709551615) = Ok 18446744073709551615
  /\ Uint64ToStr 42 = "00000000000000000042"%string.
Proof.
  split; [|reflexivity].
  apply (StrToUint64_Uint64ToStr 18446744073709551615). by vm_compute.
Defined.

End NumericCodec.

(* ===================================================================== *)
(** ** The [privacy uint64] command *)

Section CommandFacts.
Import litcli.

Variable connectClient : Context -> result unit.
Variable DecodeString : string -> result (list byte).
Variable PrivacyMapConversion :
  PrivacyMapConversionRequest -> result PrivacyMapConversionResponse.
Variable Uint64ToStr : Z -> string.
Variable StrToUint64 : string -> result Z.
Variable Sprintf_d : Z -> string.

Local Abbreviation run :=
  (privacyMapConvertUint64 connectClient DecodeString
     PrivacyMapConversion Uint64ToStr StrToUint64 Sprintf_d).

(** C8: once the connection is up and the session id decodes, the command
    sends one request, before anything else, and its [Input] is
    [Uint64ToStr] of the input flag; when the server answers and
    [StrToUint64] decodes the [Output] of the answer, the command prints that
    number, formatted, after the request and returns success; when the call
    or the decoding fails it prints nothing and returns that error.
    Conversely every request the command sends carries [Uint64ToStr] of the
    input flag, so the mapper only sees the string form; whatever the command
    prints is [StrToUint64] of the [Output] of the response to that request,
    formatted; and it prints exactly when it succeeds. *)
Theorem privacyMapConvertUint64_codec_both_ways (ctx : Context) :
  (forall sid,
     connectClient ctx = Ok () ->
     DecodeString (session_id ctx) = Ok sid ->
     let req := MkRequest sid (realtopseudo ctx) (Uint64ToStr (input ctx)) in
     (exists rest, (run ctx).1 = Call req :: rest)
     /\ (forall resp output,
           PrivacyMapConversion req = Ok resp ->
           StrToUint64 (Output resp) = Ok output ->
           run ctx
           = ([Call req; PrintJSON (MkResponse (Sprintf_d output))], Ok ()))
     /\ (forall resp e,
           PrivacyMapConversion req = Ok resp ->
           StrToUint64 (Output resp) = Err e ->
           run ctx = ([Call req], Err e))
     /\ (forall e,
           PrivacyMapConversion req = Err e ->
           run ctx = ([Call req], Err e)))
  /\ (forall req, In (Call req) (run ctx).1 ->
        Input req = Uint64ToStr (input ctx)
        /\ RealToPseudo req = realtopseudo ctx
        /\ DecodeString (session_id ctx) = Ok (SessionId req))
  /\ (forall out, In (PrintJSON out) (run ctx).1 ->
        exists req resp output,
          (run ctx).1 = [Call req; PrintJSON out]
          /\ Input req = Uint64ToStr (input ctx)
          /\ PrivacyMapConversion req = Ok resp
          /\ StrToUint64 (Output resp) = Ok output
          /\ Output out = Sprintf_d output)
  /\ ((run ctx).2 = Ok () <-> exists out, In (PrintJSON out) (run ctx).1).
Proof.
  split.
  { intros sid Hconn Hsid req. unfold privacyMapConvertUint64.
    rewrite Hconn, Hsid. fold req.
    destruct (PrivacyMapConversion req) as [resp|e2] eqn:Hcall.
    - destruct (StrToUint64 (Output resp)) as [output|e3] eqn:Hout.
      + split; [by eexists|]. split; [|split].
        * intros resp' output' [= <-] Hout'. rewrite Hout in Hout'.
          by injection Hout' as <-.
        * intros resp' e [= <-] Hout'. rewrite Hout in Hout'. discriminate.
        * discriminate.
      + split; [by eexists|]. split; [|split].
        * intros resp' output' [= <-] Hout'. rewrite Hout in Hout'.
          discriminate.
        * intros resp' e [= <-] Hout'. rewrite Hout in Hout'.
          by injection Hout' as <-.
        * discriminate.
    - split; [by eexists|]. split; [|split].
      + discriminate.
      + discriminate.
      + by intros e [= <-]. }
  unfold privacyMapConvertUint64.
  destruct (connectClient ctx) as [[]|e0]; cbn [fst snd].
  2:{ split; [intros ? []|split; [intros ? []|]].
      split; [discriminate|intros [? []]]. }
  destruct (DecodeString (session_id ctx)) as [sid|e1] eqn:Hsid; cbn [fst snd].
  2:{ split; [intros ? []|split; [intros ? []|]].
      split; [discriminate|intros [? []]]. }
  destruct (PrivacyMapConversion _) as [resp|e2] eqn:Hcall; cbn [fst snd].
  2:{ split; [|split].
      - intros req [[= <-]|[]]. done.
      - intros out [[=]|[]].
      - split; [discriminate|]. intros [out [[=]|[]]]. }
  destruct (StrToUint64 (Output resp)) as [output|e3] eqn:Hout; cbn [fst snd].
  2:{ split; [|split].
      - intros req [[= <-]|[]]. done.
      - intros out [[=]|[]].
      - split; [discriminate|]. intros [out [[=]|[]]]. }
  split; [|split].
  - intros req [[= <-]|[[=]|[]]]. done.
  - intros out [[=]|[[= <-]|[]]]. by eexists _, resp, output.
  - split; [|done]. intros _. eexists. right. left. reflexivity.
Qed.

End CommandFacts.

(* ===================================================================== *)
(** ** The privacy mapper *)

Section MapperFacts.
Import privacymapper.

Variable newPseudo : nat -> gset string -> string.
(** The generator never returns a pseudo value already in use. *)
Hypothesis newPseudo_fresh : forall rnd used, newPseudo rnd used ∉ used.

Lemma consistent_empty : consistent ∅.
Proof. intros sid ns H. by rewrite lookup_empty in H. Qed.

Lemma consistent_clear m sid : consistent m -> consistent (clear m sid).
Proof.
  intros Hm sid' ns H. unfold clear in H.
  apply lookup_delete_Some in H as [_ H]. by apply (Hm sid').
Qed.

(** What a call of [realToPseudo] leaves behind. *)
Lemma realToPseudo_spec rnd m sid real pseudo m' :
  consistent m ->
  realToPseudo newPseudo rnd m sid real = (pseudo, m') ->
  consistent m'
  /\ exists ns, m' !! sid = Some ns
       /\ realToPseudoMap ns !! real = Some pseudo
       /\ pseudoToRealMap ns !! pseudo = Some real.
Proof.
  intros Hm. unfold realToPseudo.
  destruct (m !! sid) as [ns|] eqn:Hns; cbn [default from_option Datatypes.id].
  - destruct (realToPseudoMap ns !! real) as [p|] eqn:Hr.
    + intros [= <- <-]. split; [done|]. exists ns. split; [done|].
      split; [done|]. by apply (Hm sid ns Hns).
    + intros [= <- <-].
      pose proof (newPseudo_fresh rnd (dom (pseudoToRealMap ns))) as Hfresh.
      apply not_elem_of_dom in Hfresh.
      set (p := newPseudo rnd (dom (pseudoToRealMap ns))) in *.
      split.
      * intros sid' ns'. destruct (decide (sid' = sid)) as [->|Hne].
        -- rewrite lookup_insert_eq. intros [= <-] r q. cbn.
           destruct (decide (r = real)) as [->|Hrne];
             destruct (decide (q = p)) as [->|Hqne];
             rewrite ?lookup_insert_eq, ?lookup_insert_ne by done.
           ++ done.
           ++ split; [congruence|]. intros Hq.
              apply (Hm sid ns Hns) in Hq. congruence.
           ++ split; [|congruence]. intros Hq.
              apply (Hm sid ns Hns) in Hq. congruence.
           ++ apply (Hm sid ns Hns).
        -- rewrite lookup_insert_ne by done. apply Hm.
      * eexists. rewrite lookup_insert_eq. split; [done|]. cbn.
        by rewrite !lookup_insert_eq.
  - unfold emptyNamespace. cbn [realToPseudoMap pseudoToRealMap].
    rewrite lookup_empty. intros [= <- <-].
    set (p := newPseudo rnd _).
    split.
    + intros sid' ns'. destruct (decide (sid' = sid)) as [->|Hne].
      * rewrite lookup_insert_eq. intros [= <-] r q. cbn.
        destruct (decide (r = real)) as [->|Hrne];
          destruct (decide (q = p)) as [->|Hqne];
          rewrite ?lookup_insert_eq, ?lookup_insert_ne, ?lookup_empty by done;
          split; congruence.
      * rewrite lookup_insert_ne by done. apply Hm.
    + eexists. rewrite lookup_insert_eq. split; [done|]. cbn.
      by rewrite !lookup_insert_eq.
Qed.

Lemma reachable_consistent m : reachable newPseudo m -> consistent m.
Proof.
  induction 1 as [|rnd m sid real _ IH|m sid _ IH].
  - apply consistent_empty.
  - destruct (realToPseudo newPseudo rnd m sid real) as [p m'] eqn:E.
    by destruct (realToPseudo_spec _ _ _ _ _ _ IH E).
  - by apply consistent_clear.
Qed.


End MapperFacts.

(* ===================================================================== *)
(** ** The account ledger *)

Section LedgerFacts.
Import accounts ledger.
Local Open Scope Z_scope.

(** C10: a reservation above the current balance is declined and leaves the
    ledger as it was; a reservation that succeeds debits the balance by
    exactly the reserved amount, and the balance it leaves is not negative. *)
Theorem reservePayment_never_overdraws (now : time.Time) (s : store)
    (accountID : AccountID) (paymentHash : Hash) (reserveAmount : Z)
    (a : OffChainBalanceAccount) :
  s !! accountID = Some a ->
  (CurrentBalance a < reserveAmount ->
     reservePayment now s accountID paymentHash reserveAmount
     = Ok (Declined, s))
  /\ (forall s',
        reservePayment now s accountID paymentHash reserveAmount
        = Ok (Reserved, s') ->
        exists a',
          s' !! accountID = Some a'
          /\ CurrentBalance a' = CurrentBalance a - reserveAmount
          /\ 0 <= CurrentBalance a'
          /\ Payments a' !! paymentHash
             = Some (MkPaymentEntry StatusInFlight reserveAmount)
          /\ LastUpdate a' = now).
Proof.
  intros Ha. unfold reservePayment. rewrite Ha. split.
  - intros Hlt. destruct (expired now a); [reflexivity|].
    replace (CurrentBalance a <? reserveAmount) with true; [reflexivity|].
    symmetry. by apply Z.ltb_lt.
  - intros s'. destruct (expired now a); [discriminate|].
    destruct (Z.ltb_spec (CurrentBalance a) reserveAmount) as [|Hge];
      [discriminate|].
    intros [= <-]. eexists. rewrite lookup_insert_eq. split; [done|].
    cbn. rewrite lookup_insert_eq. repeat split; lia.
Qed.

End LedgerFacts.

(* ===================================================================== *)
(** ** Concrete mapper and ledger states *)

Section ServiceExamples.
Import accounts ledger privacymapper.
Local Open Scope Z_scope.

(** A generator that extends a fixed prefix until the result is unused. *)
Definition sampleGenerator (rnd : nat) (used : gset string) : string :=
  fresh_string_of_set "pseudo" used.

Lemma sampleGenerator_fresh rnd used : sampleGenerator rnd used ∉ used.
Proof. apply fresh_string_of_set_fresh. Qed.

(** A mapper in which one value of the session is already mapped. *)
Definition sampleMapper : mapper :=
  (realToPseudo sampleGenerator 0 ∅ "session" "carol").2.

Lemma sampleMapper_reachable : reachable sampleGenerator sampleMapper.
Proof. apply reach_realToPseudo, reach_empty. Qed.


(** The ledger of the scenario in section 8: one account with a balance of
    1000. *)
Definition ledgerAccount : OffChainBalanceAccount :=
  {| ID := copy_array 8 [Byte.x0a; Byte.x0b];
     Type_ := 0;
     InitialBalance := 1000;
     CurrentBalance := 1000;
     LastUpdate := time.Unix 1700000000 0;
     ExpirationDate := time.zero;
     Invoices := ∅;
     Payments := ∅ |}.

Definition sampleLedger : store := {[ ID ledgerAccount := ledgerAccount ]}.

Lemma reservePayment_never_overdraws_witness :
  reservePayment (time.Unix 1700000001 0) sampleLedger (ID ledgerAccount)
    hashA 1001 = Ok (Declined, sampleLedger)
  /\ (forall s',
        reservePayment (time.Unix 1700000001 0) sampleLedger (ID ledgerAccount)
          hashA 400 = Ok (Reserved, s') ->
        exists a',
          s' !! ID ledgerAccount = Some a'
          /\ CurrentBalance a' = 600
          /\ 0 <= CurrentBalance a').
Proof.
  destruct (reservePayment_never_overdraws (time.Unix 1700000001 0)
              sampleLedger (ID ledgerAccount) hashA 1001 ledgerAccount
              (lookup_singleton_eq _ _)) as (Hdecl & _).
  destruct (reservePayment_never_overdraws (time.Unix 1700000001 0)
              sampleLedger (ID ledgerAccount) hashA 400 ledgerAccount
              (lookup_singleton_eq _ _)) as (_ & Hres).
  split.
  - apply Hdecl. by vm_compute.
  - intros s' Hs'. destruct (Hres s' Hs') as (a' & Ha' & Hcb & Hpos & _).
    exists a'. done.
Defined.

(** The reservation of 400 on that ledger does succeed and leaves 600. *)
Example reservePayment_scenario :
  exists s' a',
    reservePayment (time.Unix 1700000001 0) sampleLedger (ID ledgerAccount)
      hashA 400 = Ok (Reserved, s')
    /\ s' !! ID ledgerAccount = Some a'
    /\ CurrentBalance a' = 600
    /\ reservePayment (time.Unix 1700000002 0) s' (ID ledgerAccount)
         hashB 700 = Ok (Declined, s').
Proof.
  eexists. eexists. split; [reflexivity|]. split.
  - unfold sampleLedger. apply lookup_insert_eq.
  - split; reflexivity.
Qed.

(** A run of the [privacy uint64] command with the codec of section 4.1: the
    connection is up, the session id is the hex string of two bytes, and the
    server maps every number to its successor. *)
Definition sampleContext : litcli.Context := litcli.MkContext "0a0b" true 42.

Definition sampleConnect (ctx : litcli.Context) : result unit := Ok ().

Definition sampleDecodeString (s : string) : result (list byte) :=
  if String.eqb s "0a0b" then Ok [Byte.x0a; Byte.x0b] else Err ErrHexDecode.

Definition sampleServer (req : litcli.PrivacyMapConversionRequest)
    : result litcli.PrivacyMapConversionResponse :=
  match firewalldb.StrToUint64 (litcli.Input req) with
  | Ok n => Ok (litcli.MkResponse (firewalldb.Uint64ToStr (GoInt.uint64 (n + 1))))
  | Err _ => Err ErrRPC
  end.

Lemma privacyMapConvertUint64_codec_both_ways_witness :
  litcli.privacyMapConvertUint64 sampleConnect sampleDecodeString sampleServer
    firewalldb.Uint64ToStr firewalldb.StrToUint64 pretty sampleContext
  = ([litcli.Call (litcli.MkRequest [Byte.x0a; Byte.x0b] true
                     "00000000000000000042");
      litcli.PrintJSON (litcli.MkResponse "43")], Ok ()).
Proof.
  destruct (privacyMapConvertUint64_codec_both_ways sampleConnect
              sampleDecodeString sampleServer firewalldb.Uint64ToStr
              firewalldb.StrToUint64 pretty sampleContext) as [Hrun _].
  destruct (Hrun [Byte.x0a; Byte.x0b] eq_refl eq_refl) as (_ & Hprint & _).
  apply (Hprint (litcli.MkResponse "00000000000000000043") 43);
    by vm_compute.
Defined.

End ServiceExamples.

(* ===================================================================== *)
(** * Further properties of accounts/tlv.go *)

(* ===================================================================== *)
(** ** What follows a serialised account in the input *)

Section AccountStreams.
Import tlv tlvstream accounts.
Local Open Scope Z_scope.

Variable rangeHashes : gset Hash -> list Hash.
Variable rangePayments : gmap Hash PaymentEntry -> list (Hash * PaymentEntry).
Hypothesis rangeHashes_perm : forall s, rangeHashes s ≡ₚ elements s.
Hypothesis rangePayments_perm : forall m, rangePayments m ≡ₚ map_to_list m.

Local Abbreviation serialize := (serializeAccount rangeHashes rangePayments).
Local Abbreviation deserialize := (deserializeAccount rangeHashes rangePayments).
Local Abbreviation records := (deserializeRecords rangeHashes rangePayments).

Ltac read_back Hz :=
  cbn [load store p_id p_accountType p_initialBalance p_currentBalance
       p_lastUpdate p_expirationDate p_invoices p_payments
       id accountType initialBalance currentBalance lastUpdate
       expirationDate invoices payments serializeFrame];
  rewrite ?Hz; cbn [negb];
  rewrite ?int64_uint64_mod, ?copy_array_vec;
  rewrite ?(int64_id (time.UnixNano _)) by apply UnixNano_range;
  f_equal;
  [ by apply uint8_id
  | unfold uint64; rewrite Z.mod_mod by lia; by apply uint64_id
  | by apply int64_id ].

Ltac decode_known lem :=
  erewrite decode_step_record;
  [ | by vm_compute | | by vm_compute | reflexivity | apply lem ].

(** The output of [serializeAccount] begins with the ID record. *)
Lemma serialize_starts_with_ID (a : OffChainBalanceAccount) :
  exists tail,
    serialize (Some a)
    = Ok (WriteVarInt typeID ++ WriteVarInt 8 ++ vec_to_list (ID a) ++ tail).
Proof.
  unfold serializeAccount. rewrite NewStream_serialize. cbn [mbind result_bind].
  unfold serializeRecords, Encode.
  destruct (negb _); cbn [app map concat]; rewrite <- !app_assoc;
    eexists; cbn [typ sizeFunc encoder MakePrimitiveRecord_bytes EVarBytes load
                  p_id serializeFrame id];
    rewrite length_vec_to_list; reflexivity.
Qed.

(** Decoding an input that begins with a serialised account: once the
    records of the account are read, the loop goes on with what follows, all
    known records passed and the next type expected above [typePayments]. *)
Lemma serialize_decode_tail (a : OffChainBalanceAccount) :
  wf_account a ->
  exists content v p,
    serialize (Some a) = Ok content
    /\ (8 <= length content)%nat
    /\ p !! typeExpirationDate
       = (if time.IsZero (ExpirationDate a) then None else Some None)
    /\ (forall t, typePayments < t -> p !! t = None)
    /\ buildAccount v p = persisted a
    /\ forall fuel rest x,
         decode fuel [] (typePayments + 1) false p v rest = Some x ->
         decode (8 + fuel) records 0 false ∅ zeroFrame (content ++ rest)
         = Some x.
Proof.
  intros Hwf.
  destruct (serialize_decode rangeHashes rangePayments rangeHashes_perm
              rangePayments_perm a Hwf)
    as (content & Hser & Hlen & v0 & p0 & _ & _ & _).
  destruct Hwf as (Hty & Hib & Hcb & Hlu & Hexp & Hinv & Hpay & Hent).
  exists content. revert Hser.
  unfold serializeAccount. rewrite NewStream_serialize. cbn [mbind result_bind].
  intros [= <-].
  assert (Hid : is_uint64 (sizeFunc (MakePrimitiveRecord_bytes typeID p_id)
                             (serializeFrame a))).
  { cbn. rewrite length_vec_to_list. by vm_compute. }
  assert (Hsh : forall t, is_uint64 (sizeFunc
            (newHashMapRecord rangeHashes t p_invoices) (serializeFrame a))).
  { intros t. apply uint64_range. }
  assert (Hsp : forall t, is_uint64 (sizeFunc
            (newPaymentEntryMapRecord rangePayments t p_payments)
            (serializeFrame a))).
  { intros t. apply uint64_range. }
  revert Hlen. unfold serializeRecords, Encode, deserializeRecords.
  destruct (time.IsZero (ExpirationDate a)) eqn:Hz; cbn [negb app map concat];
    intros Hlen; do 2 eexists.
  - split; [reflexivity|]. split; [exact Hlen|].
    split; [|split; [|split]]; cycle 3.
    + intros fuel rest x Hx. rewrite <- !app_assoc. cbn [app].
      apply (decode_fuel_mono (7 + fuel)); [lia|].
      cbn [Nat.add].
      decode_known dec_bytes; [|done].
      decode_known dec_uint8; [|by vm_compute|apply uint8_range].
      decode_known dec_uint64; [|by vm_compute].
      decode_known dec_uint64; [|by vm_compute].
      decode_known dec_uint64; [|by vm_compute].
      decode_known dec_hashes; [|done|done|cbn; lia].
      decode_known dec_payments; [|done|done|cbn; lia].
      exact Hx.
    + reflexivity.
    + intros t Ht. unfold typePayments in Ht.
      cbn [typ MakePrimitiveRecord_bytes MakePrimitiveRecord_uint8
           MakePrimitiveRecord_uint64 newHashMapRecord newPaymentEntryMapRecord
           MakeDynamicRecord].
      rewrite !lookup_insert_ne by (vm_compute; lia). apply lookup_empty.
    + unfold buildAccount, persisted. rewrite Hz.
      match goal with |- context [?m !! typeExpirationDate] =>
        replace (m !! typeExpirationDate) with (@None (option (list byte)))
          by reflexivity end.
      read_back Hz.
  - split; [reflexivity|]. split; [exact Hlen|].
    split; [|split; [|split]]; cycle 3.
    + intros fuel rest x Hx. rewrite <- !app_assoc. cbn [app].
      cbn [Nat.add].
      decode_known dec_bytes; [|done].
      decode_known dec_uint8; [|by vm_compute|apply uint8_range].
      decode_known dec_uint64; [|by vm_compute].
      decode_known dec_uint64; [|by vm_compute].
      decode_known dec_uint64; [|by vm_compute].
      decode_known dec_uint64; [|by vm_compute].
      decode_known dec_hashes; [|done|done|cbn; lia].
      decode_known dec_payments; [|done|done|cbn; lia].
      exact Hx.
    + reflexivity.
    + intros t Ht. unfold typePayments in Ht.
      cbn [typ MakePrimitiveRecord_bytes MakePrimitiveRecord_uint8
           MakePrimitiveRecord_uint64 newHashMapRecord newPaymentEntryMapRecord
           MakeDynamicRecord].
      rewrite !lookup_insert_ne by (vm_compute; lia). apply lookup_empty.
    + unfold buildAccount, persisted. rewrite Hz.
      match goal with |- context [?m !! typeExpirationDate] =>
        replace (m !! typeExpirationDate) with (Some (@None (list byte)))
          by reflexivity end.
      read_back Hz.
Qed.

(** X1: an unknown record after the records of the account is skipped: a
    serialised account followed by a record of any type above
    [typePayments], of any length, with a payload of that length, decodes to
    the same account as without it. *)
Theorem deserialize_skips_unknown_record (a : OffChainBalanceAccount)
    (t : Z) (payload : list byte) :
  wf_account a ->
  typePayments < t < 2 ^ 64 ->
  Z.of_nat (length payload) < 2 ^ 64 ->
  exists content,
    serialize (Some a) = Ok content
    /\ deserialize content = Some (Ok (persisted a))
    /\ deserialize (content ++ WriteVarInt t
                      ++ WriteVarInt (Z.of_nat (length payload)) ++ payload)
       = Some (Ok (persisted a)).
Proof.
  intros Hwf Ht Hlen.
  destruct (serialize_decode_tail a Hwf)
    as (content & v & p & Hser & Hlc & Hp6 & Hpt & Hb & Hdec).
  exists content. split; [done|]. split.
  - destruct (deserialize_serialize rangeHashes rangePayments rangeHashes_perm
                rangePayments_perm a Hwf) as (c' & Hser' & Hdes).
    congruence.
  - unfold deserializeAccount. rewrite NewStream_deserialize.
    unfold DecodeWithParsedTypes.
    pose proof (WriteVarInt_length t) as Hl1.
    pose proof (WriteVarInt_length (Z.of_nat (length payload))) as Hl2.
    set (rest := WriteVarInt t ++ _).
    assert (Hrest : decode 2 [] (typePayments + 1) false p v rest
              = Some (Ok (v, <[t := Some payload]> p))).
    { unfold rest. cbn [decode].
      rewrite ReadVarInt_WriteVarInt by (unfold is_uint64, typePayments in *; lia).
      replace (t <? typePayments + 1) with false
        by (symmetry; apply Z.ltb_ge; lia).
      cbn [orb].
      rewrite ReadVarInt_WriteVarInt by (unfold is_uint64; lia).
      cbn [getRecord].
      replace (Z.of_nat (length payload) <? Z.of_nat (length payload))
        with false by (symmetry; apply Z.ltb_ge; lia).
      rewrite Nat2Z.id, drop_all, firstn_all. reflexivity. }
    rewrite (decode_fuel_mono (8 + 2) (S (length (content ++ rest))) _ _ _ _ _ _ _
               ltac:(unfold rest; rewrite !length_app; lia)
               (Hdec 2%nat rest _ Hrest)).
    f_equal. f_equal. rewrite <- Hb. unfold buildAccount.
    rewrite lookup_insert_ne by (unfold typePayments, typeExpirationDate in *; lia).
    reflexivity.
Qed.

(** X2: two serialised accounts one after the other are not read as either
    of them: the stream is rejected as not canonical. *)
Theorem deserialize_rejects_concatenation (a b : OffChainBalanceAccount) :
  wf_account a ->
  exists content_a content_b,
    serialize (Some a) = Ok content_a
    /\ serialize (Some b) = Ok content_b
    /\ deserialize (content_a ++ content_b) = Some (Err ErrStreamNotCanonical).
Proof.
  intros Hwf.
  destruct (serialize_decode_tail a Hwf)
    as (content & v & p & Hser & Hlc & Hp6 & Hpt & Hb & Hdec).
  destruct (serialize_starts_with_ID b) as (tail & Hserb).
  eexists content, _. split; [done|]. split; [exact Hserb|].
  unfold deserializeAccount. rewrite NewStream_deserialize.
  unfold DecodeWithParsedTypes.
  set (rest := WriteVarInt typeID ++ _).
  assert (Hrest : decode 1 [] (typePayments + 1) false p v rest
            = Some (Err ErrStreamNotCanonical)).
  { unfold rest. cbn [decode].
    rewrite ReadVarInt_WriteVarInt by (by vm_compute). reflexivity. }
  rewrite (decode_fuel_mono (8 + 1) (S (length (content ++ rest))) _ _ _ _ _ _ _
             ltac:(rewrite !length_app; lia) (Hdec 1%nat rest _ Hrest)).
  reflexivity.
Qed.

End AccountStreams.

(* ===================================================================== *)
(** ** The map decoders on arbitrary input *)

Section MapDecoders.
Import tlv tlvstream accounts.
Local Open Scope Z_scope.

Lemma read_array_ok n (r : list byte) :
  (n <= length r)%nat ->
  exists v, read_array n r = Some (v, drop n r) /\ vec_to_list v = take n r.
Proof.
  revert r. induction n as [|n IH]; intros r Hn.
  - exists [#]. split; [by rewrite drop_0|by rewrite take_0].
  - destruct r as [|b r]; [simpl in Hn; lia|].
    destruct (IH r ltac:(simpl in Hn; lia)) as (v & Hv & Hl).
    exists (b ::: v). cbn [read_array]. rewrite Hv. split; [reflexivity|].
    simpl. by rewrite Hl.
Qed.

Lemma read_array_short n (r : list byte) :
  (length r < n)%nat -> read_array n r = None.
Proof.
  revert r. induction n as [|n IH]; intros r Hn; [lia|].
  destruct r as [|b r]; [reflexivity|]. cbn [read_array].
  rewrite IH by (simpl in Hn; lia). reflexivity.
Qed.

(** [DBytes32] on a record of 32 bytes: it succeeds exactly when 32 bytes
    are left. *)
Lemma DBytes32_ok (r : reader) :
  (32 <= length r)%nat ->
  exists h, DBytes32 r 32 = Ok (h, drop 32 r) /\ vec_to_list h = take 32 r.
Proof.
  intros Hr. destruct (read_array_ok 32 r Hr) as (h & Hh & Hl).
  exists h. split; [|done]. unfold DBytes32. cbn [Z.eqb Pos.eqb].
  rewrite Hh. destruct r; [simpl in Hr; lia|reflexivity].
Qed.

Lemma DBytes32_short (r : reader) :
  (length r < 32)%nat ->
  DBytes32 r 32 = Err EOF \/ DBytes32 r 32 = Err ErrUnexpectedEOF.
Proof.
  intros Hr. unfold DBytes32. cbn [Z.eqb Pos.eqb].
  destruct r as [|b r]; [by left|]. right.
  rewrite read_array_short by done. reflexivity.
Qed.

(** The [i]-th block of 32 bytes of the input. *)
Definition hashBlock (i : nat) (r : list byte) : list byte :=
  take 32 (drop (32 * i) r).

Lemma HashMapDecoder_loop_ok n (acc : gset Hash) (r : reader) :
  (32 * n <= length r)%nat ->
  exists s,
    HashMapDecoder_loop n acc r = Ok (s, drop (32 * n) r)
    /\ (forall h, h ∈ s <->
          h ∈ acc \/ exists i, (i < n)%nat /\ hashBlock i r = vec_to_list h)
    /\ (size s <= size acc + n)%nat.
Proof.
  revert acc r. induction n as [|n IH]; intros acc r Hn.
  - exists acc. cbn [HashMapDecoder_loop]. rewrite drop_0.
    split; [done|]. split; [|lia].
    intros h. split; [by left|]. intros [|(i & Hi & _)]; [done|lia].
  - destruct (DBytes32_ok r ltac:(lia)) as (h0 & Hh0 & Hl0).
    destruct (IH ({[ h0 ]} ∪ acc) (drop 32 r)
                ltac:(rewrite length_drop; lia)) as (s & Hs & Hin & Hsz).
    exists s. cbn [HashMapDecoder_loop]. rewrite Hh0. cbn [mbind result_bind].
    rewrite Hs, drop_drop. split; [do 3 f_equal; lia|]. split.
    + intros h. rewrite Hin, elem_of_union, elem_of_singleton. split.
      * intros [[->|Hacc]|(i & Hi & Hb)].
        -- right. exists 0%nat. split; [lia|].
           unfold hashBlock. by rewrite Nat.mul_0_r, drop_0.
        -- by left.
        -- right. exists (S i). split; [lia|]. unfold hashBlock in *.
           rewrite drop_drop in Hb. rewrite <- Hb. do 2 f_equal. lia.
      * intros [Hacc|(i & Hi & Hb)]; [by left; right|].
        destruct i as [|i].
        -- left. left. apply vec_to_list_inj2.
           unfold hashBlock in Hb. rewrite Nat.mul_0_r, drop_0 in Hb.
           congruence.
        -- right. exists i. split; [lia|]. unfold hashBlock in *.
           rewrite drop_drop, <- Hb. do 2 f_equal. lia.
    + assert (size ({[h0]} ∪ acc) <= 1 + size acc)%nat; [|lia].
      rewrite size_union_alt, size_singleton.
      assert (Hsub : acc ∖ {[h0]} ⊆ acc).
      { intros x Hx. by apply elem_of_difference in Hx as [Hx _]. }
      apply subseteq_size in Hsub. lia.
Qed.

Lemma HashMapDecoder_loop_short n (acc : gset Hash) (r : reader) :
  (length r < 32 * n)%nat ->
  HashMapDecoder_loop n acc r = Err EOF
  \/ HashMapDecoder_loop n acc r = Err ErrUnexpectedEOF.
Proof.
  revert acc r. induction n as [|n IH]; intros acc r Hn; [lia|].
  cbn [HashMapDecoder_loop].
  destruct (Nat.lt_ge_cases (length r) 32) as [Hlt|Hge].
  - destruct (DBytes32_short r Hlt) as [-> | ->]; [by left|by right].
  - destruct (DBytes32_ok r Hge) as (h0 & -> & _). cbn [mbind result_bind].
    apply IH. rewrite length_drop. lia.
Qed.

(** X3: [HashMapDecoder] reads the count and then exactly that many blocks of
    32 bytes, whatever length the record announces.  When the blocks are all
    there it returns the set of the blocks (at most as many hashes as the
    count) and leaves the input after them; and it returns a set in that case
    only: on an input with fewer bytes than the count announces it never
    succeeds. *)
Theorem HashMapDecoder_reads_count_blocks (r : reader) (l : Z)
    (numItems : Z) (r1 : reader) :
  ReadVarInt r = Ok (numItems, r1) ->
  (32 * numItems <= Z.of_nat (length r1) ->
     exists s,
       HashMapDecoder r l = Ok (s, drop (32 * Z.to_nat numItems) r1)
       /\ (forall h, h ∈ s <->
             exists i, (i < Z.to_nat numItems)%nat
                       /\ hashBlock i r1 = vec_to_list h)
       /\ Z.of_nat (size s) <= numItems)
  /\ (forall s r',
       HashMapDecoder r l = Ok (s, r') ->
       32 * numItems <= Z.of_nat (length r1)
       /\ r' = drop (32 * Z.to_nat numItems) r1).
Proof.
  intros Hread. pose proof (ReadVarInt_range _ _ _ Hread) as Hn.
  unfold is_uint64 in Hn. unfold HashMapDecoder. rewrite Hread.
  cbn [mbind result_bind]. split.
  - intros Hlen.
    destruct (HashMapDecoder_loop_ok (Z.to_nat numItems) ∅ r1 ltac:(lia))
      as (s & Hs & Hin & Hsz).
    exists s. split; [done|]. split.
    + intros h. rewrite Hin. split; [|by right].
      intros [Hemp|Hex]; [|done]. by apply not_elem_of_empty in Hemp.
    + rewrite size_empty in Hsz. lia.
  - intros s r' Hok.
    destruct (Z.le_gt_cases (32 * numItems) (Z.of_nat (length r1)))
      as [Hle|Hgt].
    + split; [done|].
      destruct (HashMapDecoder_loop_ok (Z.to_nat numItems) ∅ r1 ltac:(lia))
        as (s' & Hs' & _). rewrite Hs' in Hok. by injection Hok as _ <-.
    + destruct (HashMapDecoder_loop_short (Z.to_nat numItems) ∅ r1
                  ltac:(lia)) as [H|H]; rewrite H in Hok; discriminate.
Qed.

(** The bytes of one payment entry: hash, status byte, amount. *)
Lemma PaymentEntryMapDecoder_loop_ok n (acc : gmap Hash PaymentEntry)
    (r : reader) :
  (41 * n <= length r)%nat ->
  exists m,
    PaymentEntryMapDecoder_loop n acc r = Ok (m, drop (41 * n) r)
    /\ (size m <= size acc + n)%nat
    /\ (map_Forall (fun _ e => status_fits e /\ is_uint64 (FullAmount e)) acc ->
        map_Forall (fun _ e => status_fits e /\ is_uint64 (FullAmount e)) m).
Proof.
  revert acc r. induction n as [|n IH]; intros acc r Hn.
  - exists acc. cbn [PaymentEntryMapDecoder_loop]. rewrite drop_0.
    split; [done|]. split; [lia|done].
  - destruct (DBytes32_ok r ltac:(lia)) as (h0 & Hh0 & _).
    cbn [PaymentEntryMapDecoder_loop]. rewrite Hh0. cbn [mbind result_bind].
    destruct (drop 32 r) as [|b r2] eqn:Hd.
    { apply (f_equal length) in Hd. rewrite length_drop in Hd. simpl in Hd. lia. }
    cbn [Read1 mbind result_bind].
    assert (Hl2 : (length r2 = length r - 33)%nat).
    { apply (f_equal length) in Hd. rewrite length_drop in Hd. simpl in Hd. lia. }
    unfold DUint64. cbn [Z.eqb Pos.eqb].
    rewrite ReadFull_ok by lia. cbn [mbind result_bind].
    set (e0 := MkPaymentEntry (Z_of_byte b) (UintBE (take 8 r2))).
    destruct (IH (<[h0 := e0]> acc) (drop 8 r2)
                ltac:(rewrite length_drop; lia)) as (m & Hm & Hsz & Hall).
    exists m. rewrite Hm. split.
    { do 2 f_equal.
      replace r2 with (drop 33 r).
      - rewrite !drop_drop. f_equal. lia.
      - replace 33%nat with (32 + 1)%nat by lia.
        rewrite <- drop_drop, Hd. reflexivity. }
    split.
    + pose proof (map_size_insert h0 e0 acc) as Hi.
      destruct (acc !! h0); simpl in Hi; lia.
    + intros Hacc. apply Hall. apply map_Forall_insert_2; [|done].
      unfold status_fits, is_uint64, e0. cbn [Status FullAmount].
      pose proof (Z_of_byte_range b).
      pose proof (UintBE_range (take 8 r2)) as Hu.
      rewrite length_take in Hu.
      replace (8 `min` length r2)%nat with 8%nat in Hu by lia.
      simpl in Hu. lia.
Qed.

Lemma PaymentEntryMapDecoder_loop_short n (acc : gmap Hash PaymentEntry)
    (r : reader) :
  (length r < 41 * n)%nat ->
  PaymentEntryMapDecoder_loop n acc r = Err EOF
  \/ PaymentEntryMapDecoder_loop n acc r = Err ErrUnexpectedEOF.
Proof.
  revert acc r. induction n as [|n IH]; intros acc r Hn; [lia|].
  cbn [PaymentEntryMapDecoder_loop].
  destruct (Nat.lt_ge_cases (length r) 32) as [Hlt|Hge].
  { destruct (DBytes32_short r Hlt) as [-> | ->]; [by left|by right]. }
  destruct (DBytes32_ok r Hge) as (h0 & -> & _). cbn [mbind result_bind].
  destruct (drop 32 r) as [|b r2] eqn:Hd; [by left|].
  cbn [Read1 mbind result_bind].
  assert (Hl2 : (length r2 = length r - 33)%nat).
  { apply (f_equal length) in Hd. rewrite length_drop in Hd. simpl in Hd. lia. }
  unfold DUint64. cbn [Z.eqb Pos.eqb].
  destruct (Nat.lt_ge_cases (length r2) 8) as [Hlt8|Hge8].
  - unfold ReadFull. destruct r2 as [|b2 r3]; [by left|].
    replace (length (b2 :: r3) <? 8)%nat with true
      by (symmetry; by apply Nat.ltb_lt).
    by right.
  - rewrite ReadFull_ok by lia. cbn [mbind result_bind].
    apply IH. rewrite length_drop. lia.
Qed.

(** X4: [PaymentEntryMapDecoder] reads the count and then exactly that many
    entries of 41 bytes, whatever length the record announces.  When the
    entries are all there the map it returns has at most as many entries as
    the count, each with a status in [0, 255] and an amount that is a
    [uint64], and the input is left after them; and it returns a map in that
    case only: on an input with fewer bytes than the count announces it never
    succeeds. *)
Theorem PaymentEntryMapDecoder_reads_count_entries (r : reader) (l : Z)
    (numItems : Z) (r1 : reader) :
  ReadVarInt r = Ok (numItems, r1) ->
  (41 * numItems <= Z.of_nat (length r1) ->
     exists m,
       PaymentEntryMapDecoder r l = Ok (m, drop (41 * Z.to_nat numItems) r1)
       /\ Z.of_nat (size m) <= numItems
       /\ map_Forall (fun _ e => 0 <= Status e <= 255
                                 /\ 0 <= FullAmount e < 2 ^ 64) m)
  /\ (forall m r',
       PaymentEntryMapDecoder r l = Ok (m, r') ->
       41 * numItems <= Z.of_nat (length r1)
       /\ r' = drop (41 * Z.to_nat numItems) r1).
Proof.
  intros Hread. pose proof (ReadVarInt_range _ _ _ Hread) as Hn.
  unfold is_uint64 in Hn. unfold PaymentEntryMapDecoder. rewrite Hread.
  cbn [mbind result_bind]. split.
  - intros Hlen.
    destruct (PaymentEntryMapDecoder_loop_ok (Z.to_nat numItems) ∅ r1
                ltac:(lia)) as (m & Hm & Hsz & Hall).
    exists m. split; [done|]. split.
    + rewrite map_size_empty in Hsz. lia.
    + apply Hall, map_Forall_empty.
  - intros m r' Hok.
    destruct (Z.le_gt_cases (41 * numItems) (Z.of_nat (length r1)))
      as [Hle|Hgt].
    + split; [done|].
      destruct (PaymentEntryMapDecoder_loop_ok (Z.to_nat numItems) ∅ r1
                  ltac:(lia)) as (m' & Hm' & _).
      rewrite Hm' in Hok. by injection Hok as _ <-.
    + destruct (PaymentEntryMapDecoder_loop_short (Z.to_nat numItems) ∅ r1
                  ltac:(lia)) as [H|H]; rewrite H in Hok; discriminate.
Qed.

(** X5: when the input of [PaymentEntryMapDecoder] holds the same hash more
    than once, the entry read last is the one the map keeps. *)
Theorem PaymentEntryMapDecoder_last_entry_wins
    (before after : list (Hash * PaymentEntry)) (h : Hash) (e : PaymentEntry)
    (l : Z) :
  let entries := before ++ (h, e) :: after in
  Z.of_nat (length entries) < 2 ^ 64 ->
  h ∉ after.*1 ->
  exists m,
    PaymentEntryMapDecoder
      (WriteVarInt (Z.of_nat (length entries))
       ++ concat (map entryBytes entries)) l = Ok (m, [])
    /\ m !! h = Some (persistedEntry e).
Proof.
  intros entries Hlen Hh. unfold PaymentEntryMapDecoder.
  rewrite ReadVarInt_WriteVarInt by (unfold is_uint64; lia).
  cbn [mbind result_bind]. rewrite Nat2Z.id.
  rewrite <- (app_nil_r (concat _)), PaymentEntryMapDecoder_loop_app.
  eexists. split; [reflexivity|].
  unfold entries. rewrite fold_left_app. cbn [fold_left fst snd].
  match goal with |- fold_left _ after ?m0 !! h = _ =>
    assert (H0 : m0 !! h = Some (persistedEntry e)) by apply lookup_insert_eq;
    revert H0; generalize m0 end.
  clear Hlen. clear entries.
  induction after as [|[h' e'] after IH]; intros m1 H1; [done|].
  cbn [fold_left fst snd]. rewrite fmap_cons in Hh.
  apply not_elem_of_cons in Hh as [Hne Hh].
  apply IH; [done|]. rewrite lookup_insert_ne by done. done.
Qed.

End MapDecoders.

(* ===================================================================== *)
(** ** The accounts [deserializeAccount] returns *)

Section DecodeInvariant.
Import tlv tlvstream.
Local Open Scope Z_scope.
Context {V : Type}.

(** A property of the variables that every decoder of the stream keeps,
    on inputs of at most [L] bytes, holds when the loop ends. *)
Lemma decode_invariant (P : V -> Prop) (L : nat) fuel
    (rs : list (TlvRecord V)) min ov (p : TypeMap) (v : V) (r : reader) v' p' :
  Forall (fun rec =>
            shrinking rec
            /\ forall r l v v' r',
                 (length r <= L)%nat -> P v ->
                 decoder rec r l v = Ok (v', r') -> P v') rs ->
  (length r <= L)%nat -> P v ->
  decode fuel rs min ov p v r = Some (Ok (v', p')) -> P v'.
Proof.
  revert rs min ov p v r.
  induction fuel as [|fuel IH]; intros rs min ov p v r Hrs Hr Hv; [discriminate|].
  cbn [decode].
  destruct (ReadVarInt r) as [[t r1]|e] eqn:E1.
  2:{ destruct e; try discriminate. by intros [= <- _]. }
  apply ReadVarInt_shrinks in E1.
  destruct (ov || (t <? min)); [discriminate|].
  destruct (ReadVarInt r1) as [[len r2]|e] eqn:E2; [|destruct e; discriminate].
  apply ReadVarInt_shrinks in E2.
  destruct (getRecord t rs) as [o rs'] eqn:Eg.
  destruct (getRecord_Forall _ _ _ _ _ Hrs Eg) as [Hrs' Ho].
  destruct o as [rec|].
  - destruct (decoder rec r2 len v) as [[v1 r3]|e] eqn:Ed;
      [|destruct e; discriminate].
    destruct (Ho rec eq_refl) as [Hsh Hkeep].
    apply IH; [done| |].
    + apply Hsh in Ed. lia.
    + apply (Hkeep r2 len v v1 r3); [lia|done|done].
  - destruct (Z.of_nat (length r2) <? len); [discriminate|].
    apply IH; [done| |done]. rewrite length_drop. lia.
Qed.

End DecodeInvariant.

Section DecodedAccounts.
Import tlv tlvstream accounts.
Local Open Scope Z_scope.

Variable rangeHashes : gset Hash -> list Hash.
Variable rangePayments : gmap Hash PaymentEntry -> list (Hash * PaymentEntry).
Hypothesis rangeHashes_perm : forall s, rangeHashes s ≡ₚ elements s.
Hypothesis rangePayments_perm : forall m, rangePayments m ≡ₚ map_to_list m.

(** What decoding at most [L] bytes leaves in the variables. *)
Definition frame_ok (L : nat) (v : frame) : Prop :=
  is_uint8 (accountType v)
  /\ is_uint64 (initialBalance v)
  /\ is_uint64 (currentBalance v)
  /\ is_uint64 (lastUpdate v)
  /\ is_uint64 (expirationDate v)
  /\ (32 * size (invoices v) <= L)%nat
  /\ (41 * size (payments v) <= L)%nat
  /\ map_Forall (fun _ e => status_fits e /\ is_uint64 (FullAmount e))
       (payments v).

Lemma DUint8_range r l x r' : DUint8 r l = Ok (x, r') -> is_uint8 x.
Proof.
  unfold DUint8. destruct (l =? 1); [|discriminate].
  destruct (ReadFull 1 r) as [[b r1]|]; [|discriminate].
  cbn [mbind result_bind]. intros [= <- _].
  pose proof (Z_of_byte_range (hd Byte.x00 b)). unfold is_uint8. simpl. lia.
Qed.

Lemma DUint64_range r l x r' : DUint64 r l = Ok (x, r') -> is_uint64 x.
Proof.
  unfold DUint64. destruct (l =? 8); [|discriminate].
  destruct (ReadFull 8 r) as [[b r1]|] eqn:E; [|discriminate].
  cbn [mbind result_bind]. intros [= <- _].
  apply ReadFull_length in E. pose proof (UintBE_range b) as Hb.
  rewrite E in Hb. unfold is_uint64. simpl in Hb. lia.
Qed.

Lemma HashMapDecoder_size r l s r' :
  HashMapDecoder r l = Ok (s, r') -> (32 * size s <= length r)%nat.
Proof.
  unfold HashMapDecoder.
  destruct (ReadVarInt r) as [[n r1]|] eqn:E; [|discriminate].
  cbn [mbind result_bind]. intros Hloop.
  apply ReadVarInt_shrinks in E.
  destruct (Nat.le_gt_cases (32 * Z.to_nat n) (length r1)) as [Hle|Hgt].
  - destruct (HashMapDecoder_loop_ok (Z.to_nat n) ∅ r1 Hle)
      as (s' & Hs' & _ & Hsz).
    rewrite Hs' in Hloop. injection Hloop as <- _.
    rewrite size_empty in Hsz. lia.
  - destruct (HashMapDecoder_loop_short (Z.to_nat n) ∅ r1 Hgt) as [H|H];
      rewrite H in Hloop; discriminate.
Qed.

Lemma PaymentEntryMapDecoder_size r l m r' :
  PaymentEntryMapDecoder r l = Ok (m, r') ->
  (41 * size m <= length r)%nat
  /\ map_Forall (fun _ e => status_fits e /\ is_uint64 (FullAmount e)) m.
Proof.
  unfold PaymentEntryMapDecoder.
  destruct (ReadVarInt r) as [[n r1]|] eqn:E; [|discriminate].
  cbn [mbind result_bind]. intros Hloop.
  apply ReadVarInt_shrinks in E.
  destruct (Nat.le_gt_cases (41 * Z.to_nat n) (length r1)) as [Hle|Hgt].
  - destruct (PaymentEntryMapDecoder_loop_ok (Z.to_nat n) ∅ r1 Hle)
      as (m' & Hm' & Hsz & Hall).
    rewrite Hm' in Hloop. injection Hloop as <- _.
    rewrite map_size_empty in Hsz. split; [lia|].
    apply Hall, map_Forall_empty.
  - destruct (PaymentEntryMapDecoder_loop_short (Z.to_nat n) ∅ r1 Hgt) as [H|H];
      rewrite H in Hloop; discriminate.
Qed.

Ltac keep_frame E :=
  cbn [mbind result_bind]; intros [= <- _];
  match goal with Hv : frame_ok _ _ |- _ =>
    destruct Hv as (? & ? & ? & ? & ? & ? & ? & ?) end;
  unfold frame_ok;
  cbn [store p_id p_accountType p_initialBalance p_currentBalance p_lastUpdate
       p_expirationDate p_invoices p_payments id accountType initialBalance
       currentBalance lastUpdate expirationDate invoices payments];
  repeat match goal with |- _ /\ _ => split end; try done.

Lemma deserializeRecords_keep_frame_ok (L : nat) :
  Forall (fun rec =>
            shrinking rec
            /\ forall r l v v' r',
                 (length r <= L)%nat -> frame_ok L v ->
                 decoder rec r l v = Ok (v', r') -> frame_ok L v')
    (deserializeRecords rangeHashes rangePayments).
Proof.
  unfold deserializeRecords.
  repeat first [ apply List.Forall_nil | apply List.Forall_cons ]; split;
    try first [ apply shrinking_bytes | apply shrinking_uint8
              | apply shrinking_uint64 | apply shrinking_hashes
              | apply shrinking_payments ];
    intros r l v v' r' Hr Hv;
    cbn [decoder MakePrimitiveRecord_bytes MakePrimitiveRecord_uint8
         MakePrimitiveRecord_uint64 newHashMapRecord newPaymentEntryMapRecord
         MakeDynamicRecord].
  - destruct (DVarBytes r l) as [[x r1]|]; [|discriminate]. keep_frame E.
  - destruct (DUint8 r l) as [[x r1]|] eqn:E; [|discriminate].
    apply DUint8_range in E. keep_frame E.
  - destruct (DUint64 r l) as [[x r1]|] eqn:E; [|discriminate].
    apply DUint64_range in E. keep_frame E.
  - destruct (DUint64 r l) as [[x r1]|] eqn:E; [|discriminate].
    apply DUint64_range in E. keep_frame E.
  - destruct (DUint64 r l) as [[x r1]|] eqn:E; [|discriminate].
    apply DUint64_range in E. keep_frame E.
  - destruct (DUint64 r l) as [[x r1]|] eqn:E; [|discriminate].
    apply DUint64_range in E. keep_frame E.
  - destruct (HashMapDecoder r l) as [[x r1]|] eqn:E; [|discriminate].
    apply HashMapDecoder_size in E. keep_frame E. lia.
  - destruct (PaymentEntryMapDecoder r l) as [[x r1]|] eqn:E; [|discriminate].
    apply PaymentEntryMapDecoder_size in E as [E1 E2]. keep_frame E1. lia.
Qed.

Lemma wf_Unix n : is_int64 n -> time.wf (time.Unix 0 n).
Proof.
  intros Hn. rewrite Unix_0_spec by done. unfold time.wf, is_int64 in *.
  cbn [time.sec time.nsec].
  assert (Hu : time.unixToInternal = 62135596800) by reflexivity.
  pose proof (Z.mod_pos_bound n 1000000000 ltac:(lia)).
  assert (-9223372037 <= n / 1000000000) by (apply Z.div_le_lower_bound; lia).
  assert (n / 1000000000 < 9223372037) by (apply Z.div_lt_upper_bound; lia).
  lia.
Qed.

Lemma persisted_Unix n :
  is_int64 n -> time.Unix 0 (time.UnixNano (time.Unix 0 n)) = time.Unix 0 n.
Proof. intros Hn. by rewrite UnixNano_Unix. Qed.

(** X6: every account [deserializeAccount] returns, from any input, has
    fields within their Go types, and goes through [serializeAccount] and
    [deserializeAccount] unchanged: what was read from the store is written
    back without loss. *)
Theorem deserialized_account_roundtrips (content : list byte)
    (a : OffChainBalanceAccount) :
  Z.of_nat (length content) < 2 ^ 63 ->
  deserializeAccount rangeHashes rangePayments content = Some (Ok a) ->
  wf_account a
  /\ exists content',
       serializeAccount rangeHashes rangePayments (Some a) = Ok content'
       /\ deserializeAccount rangeHashes rangePayments content' = Some (Ok a).
Proof.
  intros Hlen Hdes0. unfold deserializeAccount in Hdes0.
  rewrite NewStream_deserialize in Hdes0.
  unfold DecodeWithParsedTypes in Hdes0.
  destruct (decode _ _ _ _ _ _ _) as [[[v p]|e]|] eqn:Hdec; try discriminate.
  injection Hdes0 as <-.
  assert (Hv : frame_ok (length content) v).
  { eapply (decode_invariant (frame_ok (length content)));
      [apply deserializeRecords_keep_frame_ok|reflexivity| |exact Hdec].
    unfold frame_ok, zeroFrame.
    cbn [accountType initialBalance currentBalance lastUpdate expirationDate
         invoices payments].
    rewrite size_empty, map_size_empty.
    do 5 (split; [by vm_compute|]). split; [lia|]. split; [lia|].
    apply map_Forall_empty. }
  destruct Hv as (Hty & Hib & Hcb & Hlu & Hex & Hinv & Hpay & Hent).
  assert (Hexp : time.wf (ExpirationDate (buildAccount v p))
                 /\ (if time.IsZero (ExpirationDate (buildAccount v p))
                     then time.zero
                     else time.Unix 0
                            (time.UnixNano (ExpirationDate (buildAccount v p))))
                    = ExpirationDate (buildAccount v p)).
  { unfold buildAccount. cbn [ExpirationDate].
    destruct (p !! typeExpirationDate) as [[b|]|].
    - split; [by vm_compute|reflexivity].
    - split; [apply wf_Unix, int64_range|].
      rewrite IsZero_Unix by apply int64_range.
      apply persisted_Unix, int64_range.
    - split; [by vm_compute|reflexivity]. }
  destruct Hexp as [Hwfe Hpe].
  assert (Hwf : wf_account (buildAccount v p)).
  { unfold wf_account. split; [done|]. split; [done|].
    split; [apply int64_range|]. split; [apply wf_Unix, int64_range|].
    split; [done|].
    unfold buildAccount. cbn [Invoices Payments]. split; [lia|]. split; [lia|].
    eapply map_Forall_impl; [exact Hent|].
    intros h e [Hs Hf]. unfold status_fits in Hs. unfold is_int32.
    split; [lia|done]. }
  split; [done|].
  destruct (deserialize_serialize rangeHashes rangePayments rangeHashes_perm
              rangePayments_perm _ Hwf) as (content' & Hser & Hdes).
  exists content'. split; [done|]. rewrite Hdes. do 2 f_equal.
  unfold persisted. rewrite Hpe.
  unfold buildAccount.
  cbn [ID Type_ InitialBalance CurrentBalance LastUpdate ExpirationDate
       Invoices Payments].
  rewrite persisted_Unix by apply int64_range.
  rewrite (persisted_payments_id (payments v)).
  - reflexivity.
  - eapply map_Forall_impl; [exact Hent|].
    intros h e [Hs Hf]. unfold status_fits in Hs. unfold is_int32.
    split; [lia|done].
  - eapply map_Forall_impl; [exact Hent|]. by intros h e [Hs Hf].
Qed.

End DecodedAccounts.

(* ===================================================================== *)
(** ** The size of a serialised account and the order of the maps *)

Section DecodeIgnoresEncoders.
Import tlv tlvstream.
Local Open Scope Z_scope.
Context {V : Type}.

(** Two records that decode alike. *)
Definition same_decoder (r1 r2 : TlvRecord V) : Prop :=
  typ r1 = typ r2 /\ decoder r1 = decoder r2.

Lemma getRecord_same_decoder t (rs1 rs2 : list (TlvRecord V)) :
  Forall2 same_decoder rs1 rs2 ->
  Forall2 same_decoder (getRecord t rs1).2 (getRecord t rs2).2
  /\ match (getRecord t rs1).1, (getRecord t rs2).1 with
     | Some r1, Some r2 => same_decoder r1 r2
     | None, None => True
     | _, _ => False
     end.
Proof.
  induction 1 as [|r1 r2 rs1 rs2 [Ht Hd] Hrs IH]; [by split|].
  cbn [getRecord]. rewrite <- Ht.
  destruct (typ r1 =? t); [by split|].
  destruct (typ r1 <? t); [exact IH|].
  split; [|done]. constructor; [by split|done].
Qed.

(** The decoding loop only looks at the types and the decoders of the
    records. *)
Lemma decode_same_decoder fuel (rs1 rs2 : list (TlvRecord V)) min ov
    (p : TypeMap) (v : V) (r : reader) :
  Forall2 same_decoder rs1 rs2 ->
  decode fuel rs1 min ov p v r = decode fuel rs2 min ov p v r.
Proof.
  revert rs1 rs2 min ov p v r.
  induction fuel as [|fuel IH]; intros rs1 rs2 min ov p v r Hrs; [reflexivity|].
  cbn [decode].
  destruct (ReadVarInt r) as [[t r1]|e]; [|reflexivity].
  destruct (ov || (t <? min)); [reflexivity|].
  destruct (ReadVarInt r1) as [[len r2]|e]; [|reflexivity].
  destruct (getRecord_same_decoder t rs1 rs2 Hrs) as [Hrest Hrec].
  destruct (getRecord t rs1) as [[rec1|] rs1'],
           (getRecord t rs2) as [[rec2|] rs2']; cbn [fst snd] in *; try done.
  - destruct Hrec as [_ ->].
    destruct (decoder rec2 r2 len v) as [[v' r']|e]; [|reflexivity].
    by apply IH.
  - destruct (Z.of_nat (length r2) <? len); [reflexivity|]. by apply IH.
Qed.

End DecodeIgnoresEncoders.

Section SerializedSize.
Import tlv tlvstream accounts.
Local Open Scope Z_scope.

(** The number of bytes of a varint. *)
Definition varintSize (v : Z) : nat := length (WriteVarInt v).

(** The size of the serialisation of an account: five fixed records, the
    expiration record when the date is set, and the two map records. *)
Definition serializedSize (a : OffChainBalanceAccount) : nat :=
  (10 + 3 + 10 + 10 + 10
   + (if time.IsZero (ExpirationDate a) then 0 else 10)
   + (1 + varintSize (hashMapRecordSize (Invoices a))
      + varintSize (uint64 (Z.of_nat (size (Invoices a))))
      + 32 * size (Invoices a))
   + (1 + varintSize (paymentEntryMapRecordSize (Payments a))
      + varintSize (uint64 (Z.of_nat (size (Payments a))))
      + 41 * size (Payments a)))%nat.

(** The result of [deserializeAccount] does not depend on the order of the
    [range] loops, which only the encoders run. *)
Lemma deserializeAccount_any_order rH1 rP1 rH2 rP2 content :
  deserializeAccount rH1 rP1 content = deserializeAccount rH2 rP2 content.
Proof.
  unfold deserializeAccount. rewrite !NewStream_deserialize.
  unfold DecodeWithParsedTypes.
  rewrite (decode_same_decoder _ (deserializeRecords rH1 rP1)
             (deserializeRecords rH2 rP2)); [reflexivity|].
  unfold deserializeRecords. repeat constructor.
Qed.

Variable rangeHashes : gset Hash -> list Hash.
Variable rangePayments : gmap Hash PaymentEntry -> list (Hash * PaymentEntry).
Hypothesis rangeHashes_perm : forall s, rangeHashes s ≡ₚ elements s.
Hypothesis rangePayments_perm : forall m, rangePayments m ≡ₚ map_to_list m.

Lemma serializeAccount_size (a : OffChainBalanceAccount) :
  exists content,
    serializeAccount rangeHashes rangePayments (Some a) = Ok content
    /\ length content = serializedSize a.
Proof.
  unfold serializeAccount. rewrite NewStream_serialize.
  cbn [mbind result_bind]. eexists. split; [reflexivity|].
  unfold serializeRecords, Encode, serializedSize.
  destruct (time.IsZero (ExpirationDate a)); cbn [negb app map concat];
    rewrite !length_app;
    cbn [typ sizeFunc encoder MakePrimitiveRecord_bytes
         MakePrimitiveRecord_uint8 MakePrimitiveRecord_uint64
         newHashMapRecord newPaymentEntryMapRecord MakeDynamicRecord
         EVarBytes EUint8 EUint64T load p_id p_accountType p_initialBalance
         p_currentBalance p_lastUpdate p_expirationDate p_invoices p_payments
         serializeFrame id accountType initialBalance currentBalance
         lastUpdate expirationDate invoices payments];
    unfold EUint8, EUint64T;
    rewrite (HashMapEncoder_length rangeHashes rangeHashes_perm),
      (PaymentEntryMapEncoder_length rangePayments rangePayments_perm),
      !PutUintBE_length, !length_vec_to_list;
    change (length (WriteVarInt (Z.of_nat 8))) with 1%nat;
    change (length (WriteVarInt 8)) with 1%nat;
    change (length (WriteVarInt 1)) with 1%nat;
    change (length (WriteVarInt typeID)) with 1%nat;
    change (length (WriteVarInt typeAccountType)) with 1%nat;
    change (length (WriteVarInt typeInitialBalance)) with 1%nat;
    change (length (WriteVarInt typeCurrentBalance)) with 1%nat;
    change (length (WriteVarInt typeLastUpdate)) with 1%nat;
    change (length (WriteVarInt typeExpirationDate)) with 1%nat;
    change (length (WriteVarInt typeInvoices)) with 1%nat;
    change (length (WriteVarInt typePayments)) with 1%nat;
    unfold varintSize; cbn [length]; lia.
Qed.

(** X7: [serializeAccount] fails on the nil account and on no other; the
    bytes it returns for an account begin with the ID record and number
    [serializedSize], whatever the order of the maps. *)
Theorem serializeAccount_fails_only_on_nil :
  serializeAccount rangeHashes rangePayments None = Err ErrNilAccount
  /\ forall a, exists tail,
       serializeAccount rangeHashes rangePayments (Some a)
       = Ok (WriteVarInt typeID ++ WriteVarInt 8 ++ vec_to_list (ID a) ++ tail)
       /\ length (WriteVarInt typeID ++ WriteVarInt 8
                  ++ vec_to_list (ID a) ++ tail) = serializedSize a.
Proof.
  split; [reflexivity|]. intros a.
  destruct (serialize_starts_with_ID rangeHashes rangePayments a)
    as (tail & Hser).
  exists tail. split; [exact Hser|].
  destruct (serializeAccount_size a) as (content & Hser' & Hlen).
  congruence.
Qed.

End SerializedSize.

Section MapOrder.
Import tlv tlvstream accounts.
Local Open Scope Z_scope.

(** X8: the order in which the [range] loops visit the two maps changes
    neither the length of the serialisation nor the account read back from
    it. *)
Theorem serialization_order_irrelevant
    (rH1 rH2 : gset Hash -> list Hash)
    (rP1 rP2 : gmap Hash PaymentEntry -> list (Hash * PaymentEntry))
    (a : OffChainBalanceAccount) :
  (forall s, rH1 s ≡ₚ elements s) -> (forall s, rH2 s ≡ₚ elements s) ->
  (forall m, rP1 m ≡ₚ map_to_list m) -> (forall m, rP2 m ≡ₚ map_to_list m) ->
  wf_account a ->
  exists content1 content2,
    serializeAccount rH1 rP1 (Some a) = Ok content1
    /\ serializeAccount rH2 rP2 (Some a) = Ok content2
    /\ length content1 = length content2
    /\ forall rH rP,
         deserializeAccount rH rP content1 = Some (Ok (persisted a))
         /\ deserializeAccount rH rP content2 = Some (Ok (persisted a)).
Proof.
  intros H1 H2 P1 P2 Hwf.
  destruct (deserialize_serialize rH1 rP1 H1 P1 a Hwf) as (c1 & Hs1 & Hd1).
  destruct (deserialize_serialize rH2 rP2 H2 P2 a Hwf) as (c2 & Hs2 & Hd2).
  exists c1, c2. split; [done|]. split; [done|]. split.
  - destruct (serializeAccount_size rH1 rP1 H1 P1 a) as (c1' & Hs1' & Hl1).
    destruct (serializeAccount_size rH2 rP2 H2 P2 a) as (c2' & Hs2' & Hl2).
    congruence.
  - intros rH rP. split.
    + by rewrite (deserializeAccount_any_order rH rP rH1 rP1).
    + by rewrite (deserializeAccount_any_order rH rP rH2 rP2).
Qed.

End MapOrder.

(* ===================================================================== *)
(** * Further properties of cmd/litcli/privacy_map.go *)

Section CommandPair.
Import litcli.

Variable connectClient : Context -> result unit.
Variable DecodeString : string -> result (list byte).
Variable PrivacyMapConversion :
  PrivacyMapConversionRequest -> result PrivacyMapConversionResponse.
Variable Uint64ToStr : Z -> string.
Variable StrToUint64 : string -> result Z.
Variable Sprintf_d : Z -> string.

Local Abbreviation runStr :=
  (privacyMapConvertStr connectClient DecodeString PrivacyMapConversion).
Local Abbreviation runUint64 :=
  (privacyMapConvertUint64 connectClient DecodeString
     PrivacyMapConversion Uint64ToStr StrToUint64 Sprintf_d).

(** The requests among the events of a run. *)
Definition calls (trace : list event) : list PrivacyMapConversionRequest :=
  omap (fun ev => match ev with Call req => Some req | PrintJSON _ => None end)
    trace.

(** What a run printed. *)
Definition printed (trace : list event) : list PrivacyMapConversionResponse :=
  omap (fun ev => match ev with PrintJSON resp => Some resp | Call _ => None end)
    trace.

(** What both commands never do. *)
Definition fails_closed (run : list event * result unit) (ctx : Context)
    : Prop :=
  (length (calls run.1) <= 1)%nat
  /\ (length (printed run.1) <= length (calls run.1))%nat
  /\ (forall req, In req (calls run.1) ->
        connectClient ctx = Ok ()
        /\ DecodeString (session_id ctx) = Ok (SessionId req)
        /\ RealToPseudo req = realtopseudo ctx)
  /\ (forall resp, In (PrintJSON resp) run.1 ->
        exists req out, In req (calls run.1)
                        /\ PrivacyMapConversion req = Ok out)
  /\ (run.2 = Ok () <-> length (printed run.1) = 1%nat).


(** X10: [privacyMapConvertUint64] sends the requests [privacyMapConvertStr]
    sends for the input [Uint64ToStr] of the number; it succeeds only if that
    command does, and then prints one response, the number decoded from the
    [Output] that command would have printed. *)
Theorem privacyMapConvertUint64_is_str_on_encoding (ctx : Context) :
  let asString := runStr ctx (Uint64ToStr (input ctx)) in
  calls (runUint64 ctx).1 = calls asString.1
  /\ ((runUint64 ctx).2 = Ok () -> asString.2 = Ok ())
  /\ (forall resp, printed asString.1 = [resp] ->
        match StrToUint64 (Output resp) with
        | Ok output =>
            printed (runUint64 ctx).1 = [MkResponse (Sprintf_d output)]
            /\ (runUint64 ctx).2 = Ok ()
        | Err e =>
            printed (runUint64 ctx).1 = [] /\ (runUint64 ctx).2 = Err e
        end)
  /\ (printed asString.1 = [] ->
        printed (runUint64 ctx).1 = [] /\ (runUint64 ctx).2 = asString.2).
Proof.
  unfold privacyMapConvertUint64, privacyMapConvertStr. cbn zeta.
  destruct (connectClient ctx) as [[]|e0].
  2:{ repeat split; try done. }
  destruct (DecodeString (session_id ctx)) as [sid|e1].
  2:{ repeat split; try done. }
  destruct (PrivacyMapConversion _) as [resp|e2].
  2:{ repeat split; try done. }
  destruct (StrToUint64 (Output resp)) as [output|e3] eqn:Hout.
  - split; [reflexivity|]. split; [done|]. split; [|discriminate].
    intros resp' [= <-]. rewrite Hout. by split.
  - split; [reflexivity|]. split; [discriminate|]. split; [|discriminate].
    intros resp' [= <-]. rewrite Hout. by split.
Qed.

End CommandPair.

(* ===================================================================== *)
(** ** Lengths of records, and accounts with one serialisation *)

Section RecordLengths.
Import tlv tlvstream accounts.
Local Open Scope Z_scope.

Variable rangeHashes : gset Hash -> list Hash.
Variable rangePayments : gmap Hash PaymentEntry -> list (Hash * PaymentEntry).
Hypothesis rangeHashes_perm : forall s, rangeHashes s ≡ₚ elements s.
Hypothesis rangePayments_perm : forall m, rangePayments m ≡ₚ map_to_list m.

Local Abbreviation serialize := (serializeAccount rangeHashes rangePayments).
Local Abbreviation deserialize := (deserializeAccount rangeHashes rangePayments).
Local Abbreviation records := (deserializeRecords rangeHashes rangePayments).

Lemma deserialize_from_decode (fuel : nat) (content : list byte) x :
  (fuel <= S (length content))%nat ->
  decode fuel records 0 false ∅ zeroFrame content = Some x ->
  deserialize content
  = Some (match x with
          | Ok (v, p) => Ok (buildAccount v p)
          | Err e => Err e
          end).
Proof.
  intros Hfuel Hdec. unfold deserializeAccount.
  rewrite NewStream_deserialize. unfold DecodeWithParsedTypes.
  rewrite (decode_fuel_mono fuel (S (length content)) _ _ _ _ _ _ _ Hfuel Hdec).
  destruct x as [[v p]|e]; reflexivity.
Qed.

(** X11: the records of fixed width are checked against their width: an input
    whose first record is the account type with a length other than 1, or
    one of the two balances or the two dates with a length other than 8, is
    rejected, whatever follows. *)
Theorem deserialize_checks_fixed_widths (t l : Z) (rest : list byte) :
  0 <= l < 2 ^ 64 ->
  (t = typeAccountType /\ l <> 1)
  \/ ((t = typeInitialBalance \/ t = typeCurrentBalance
       \/ t = typeLastUpdate \/ t = typeExpirationDate) /\ l <> 8) ->
  deserialize (WriteVarInt t ++ WriteVarInt l ++ rest)
  = Some (Err ErrTypeForDecoding).
Proof.
  intros Hl Ht.
  apply (deserialize_from_decode 1 _ (Err ErrTypeForDecoding)).
  { rewrite length_app. pose proof (WriteVarInt_length t). lia. }
  cbn [decode].
  assert (Hcases : (t = 2 /\ l <> 1)
                   \/ ((t = 3 \/ t = 4 \/ t = 5 \/ t = 6) /\ l <> 8)) by exact Ht.
  destruct Hcases as [[-> Hne] | [[-> | [-> | [-> | ->]]] Hne]];
    rewrite ReadVarInt_WriteVarInt by (by vm_compute);
    cbn [Z.ltb Z.compare orb];
    rewrite ReadVarInt_WriteVarInt by done;
    unfold deserializeRecords;
    cbn [getRecord typ MakePrimitiveRecord_bytes MakePrimitiveRecord_uint8
         MakePrimitiveRecord_uint64 Z.eqb Z.ltb Z.compare Pos.eqb Pos.compare
         Pos.compare_cont typeID typeAccountType typeInitialBalance
         typeCurrentBalance typeLastUpdate typeExpirationDate decoder];
    unfold DUint8, DUint64;
    match goal with |- context [l =? ?k] =>
      replace (l =? k) with false by (symmetry; by apply Z.eqb_neq) end;
    reflexivity.
Qed.

Lemma copy_array_bytes n (l : list byte) :
  vec_to_list (copy_array n l) = take n l ++ replicate (n - length l) Byte.x00.
Proof.
  revert l. induction n as [|n IH]; intros l; [by destruct l|].
  destruct l as [|b l]; cbn [copy_array vec_to_list].
  - rewrite IH, take_nil. simpl. rewrite Nat.sub_0_r. reflexivity.
  - rewrite IH. reflexivity.
Qed.

(** X12: the ID record may have any length: [deserializeAccount] keeps its
    first eight bytes and fills up with zero bytes when there are fewer, and
    returns an account in either case. *)
Theorem deserialize_truncates_or_pads_ID (bytes : list byte) :
  Z.of_nat (length bytes) < 2 ^ 64 ->
  exists a,
    deserialize (WriteVarInt typeID ++ WriteVarInt (Z.of_nat (length bytes))
                 ++ bytes) = Some (Ok a)
    /\ vec_to_list (ID a)
       = take 8 bytes ++ replicate (8 - length bytes) Byte.x00.
Proof.
  intros Hlen.
  exists (buildAccount (store p_id bytes zeroFrame) (<[typeID := None]> ∅)).
  split.
  - apply (deserialize_from_decode 2 _
             (Ok (store p_id bytes zeroFrame, <[typeID := None]> ∅))).
    { rewrite length_app. pose proof (WriteVarInt_length typeID).
      pose proof (WriteVarInt_length (Z.of_nat (length bytes))).
      rewrite length_app. lia. }
    cbn [decode].
    rewrite ReadVarInt_WriteVarInt by (by vm_compute). cbn [Z.ltb Z.compare orb].
    rewrite ReadVarInt_WriteVarInt by (unfold is_uint64; lia).
    unfold deserializeRecords.
    cbn [getRecord typ MakePrimitiveRecord_bytes Z.eqb Pos.eqb typeID decoder].
    pose proof (ReadFull_app bytes []) as Hrd. rewrite app_nil_r in Hrd.
    unfold DVarBytes. rewrite Nat2Z.id, Hrd. reflexivity.
  - cbn [buildAccount ID store p_id id]. apply copy_array_bytes.
Qed.

(** X13: two accounts with the same serialisation are the same account once
    read back: no two accounts of the store share their bytes. *)
Theorem serializeAccount_injective (a b : OffChainBalanceAccount)
    (content : list byte) :
  wf_account a -> wf_account b ->
  serialize (Some a) = Ok content ->
  serialize (Some b) = Ok content ->
  persisted a = persisted b
  /\ ID a = ID b /\ Type_ a = Type_ b
  /\ InitialBalance a = InitialBalance b
  /\ CurrentBalance a = CurrentBalance b
  /\ Invoices a = Invoices b.
Proof.
  intros Ha Hb Hsa Hsb.
  destruct (deserialize_serialize rangeHashes rangePayments rangeHashes_perm
              rangePayments_perm a Ha) as (ca & Hca & Hda).
  destruct (deserialize_serialize rangeHashes rangePayments rangeHashes_perm
              rangePayments_perm b Hb) as (cb & Hcb & Hdb).
  assert (Heq : persisted a = persisted b) by congruence.
  split; [done|].
  pose proof (f_equal ID Heq). pose proof (f_equal Type_ Heq).
  pose proof (f_equal InitialBalance Heq).
  pose proof (f_equal CurrentBalance Heq).
  pose proof (f_equal Invoices Heq). done.
Qed.

End RecordLengths.

(* ===================================================================== *)
(** ** Concrete inputs for the further properties *)

Section FurtherExamples.
Import tlv tlvstream accounts.
Local Open Scope Z_scope.

(** The maps visited in the reverse of the order of [elements]. *)
Definition reverseHashes (s : gset Hash) : list Hash := reverse (elements s).
Definition reversePayments (m : gmap Hash PaymentEntry)
    : list (Hash * PaymentEntry) := reverse (map_to_list m).

Lemma reverseHashes_perm (s : gset Hash) : reverseHashes s ≡ₚ elements s.
Proof. apply reverse_Permutation. Qed.

Lemma reversePayments_perm (m : gmap Hash PaymentEntry) :
  reversePayments m ≡ₚ map_to_list m.
Proof. apply reverse_Permutation. Qed.

Lemma hashB_not_hashA : hashB ∉ [hashA].
Proof.
  intros H. apply elem_of_cons in H as [H|H]; [|by apply elem_of_nil in H].
  apply (f_equal vec_to_list) in H. vm_compute in H. discriminate.
Qed.

Lemma deserialize_skips_unknown_record_witness :
  exists content,
    serializeAccount elements map_to_list (Some sampleAccount) = Ok content
    /\ deserializeAccount elements map_to_list content
       = Some (Ok (persisted sampleAccount))
    /\ deserializeAccount elements map_to_list
         (content ++ WriteVarInt 9 ++ WriteVarInt 2 ++ [Byte.x01; Byte.x02])
       = Some (Ok (persisted sampleAccount)).
Proof.
  apply (deserialize_skips_unknown_record elements map_to_list elements_perm
           map_to_list_perm sampleAccount 9 [Byte.x01; Byte.x02]
           sampleAccount_wf); by vm_compute.
Defined.

Lemma deserialize_rejects_concatenation_witness :
  exists content_a content_b,
    serializeAccount elements map_to_list (Some sampleAccount) = Ok content_a
    /\ serializeAccount elements map_to_list (Some farAccount) = Ok content_b
    /\ deserializeAccount elements map_to_list (content_a ++ content_b)
       = Some (Err ErrStreamNotCanonical).
Proof.
  apply (deserialize_rejects_concatenation elements map_to_list elements_perm
           map_to_list_perm sampleAccount farAccount sampleAccount_wf).
Defined.

Lemma HashMapDecoder_reads_count_blocks_witness :
  (exists s,
     HashMapDecoder (WriteVarInt 1 ++ vec_to_list hashA ++ [Byte.x07]) 0
     = Ok (s, [Byte.x07])
     /\ Z.of_nat (size s) <= 1)
  /\ (forall s r',
        HashMapDecoder (WriteVarInt 2 ++ vec_to_list hashA ++ [Byte.x07]) 65
        <> Ok (s, r')).
Proof.
  split.
  - destruct (HashMapDecoder_reads_count_blocks
                (WriteVarInt 1 ++ vec_to_list hashA ++ [Byte.x07]) 0
                1 (vec_to_list hashA ++ [Byte.x07]) eq_refl) as [Hok _].
    destruct (Hok ltac:(by vm_compute)) as (s & Hs & _ & Hsz).
    exists s. split; [exact Hs|exact Hsz].
  - intros s r' Hok.
    destruct (HashMapDecoder_reads_count_blocks
                (WriteVarInt 2 ++ vec_to_list hashA ++ [Byte.x07]) 65
                2 (vec_to_list hashA ++ [Byte.x07]) eq_refl) as [_ Honly].
    destruct (Honly s r' Hok) as [Hlen _]. by vm_compute in Hlen.
Defined.

Lemma PaymentEntryMapDecoder_reads_count_entries_witness :
  (exists m,
     PaymentEntryMapDecoder
       (WriteVarInt 1 ++ entryBytes (hashB, MkPaymentEntry 1 77)) 41
     = Ok (m, [])
     /\ Z.of_nat (size m) <= 1)
  /\ (forall m r',
        PaymentEntryMapDecoder
          (WriteVarInt 2 ++ entryBytes (hashB, MkPaymentEntry 1 77)) 82
        <> Ok (m, r')).
Proof.
  split.
  - destruct (PaymentEntryMapDecoder_reads_count_entries
                (WriteVarInt 1 ++ entryBytes (hashB, MkPaymentEntry 1 77)) 41
                1 (entryBytes (hashB, MkPaymentEntry 1 77)) eq_refl)
      as [Hok _].
    destruct (Hok ltac:(by vm_compute)) as (m & Hm & Hsz & _).
    exists m. split; [exact Hm|exact Hsz].
  - intros m r' Hok.
    destruct (PaymentEntryMapDecoder_reads_count_entries
                (WriteVarInt 2 ++ entryBytes (hashB, MkPaymentEntry 1 77)) 82
                2 (entryBytes (hashB, MkPaymentEntry 1 77)) eq_refl)
      as [_ Honly].
    destruct (Honly m r' Hok) as [Hlen _]. by vm_compute in Hlen.
Defined.

Lemma PaymentEntryMapDecoder_last_entry_wins_witness :
  exists m,
    PaymentEntryMapDecoder
      (WriteVarInt 3
       ++ concat (map entryBytes
                    [(hashB, MkPaymentEntry 1 77); (hashB, MkPaymentEntry 2 70);
                     (hashA, MkPaymentEntry 3 5)])) 123 = Ok (m, [])
    /\ m !! hashB = Some (MkPaymentEntry 2 70).
Proof.
  apply (PaymentEntryMapDecoder_last_entry_wins
           [(hashB, MkPaymentEntry 1 77)] [(hashA, MkPaymentEntry 3 5)]
           hashB (MkPaymentEntry 2 70) 123).
  - by vm_compute.
  - apply hashB_not_hashA.
Defined.

Lemma farAccount_serialized_length content :
  serializeAccount elements map_to_list (Some farAccount) = Ok content ->
  Z.of_nat (length content) < 2 ^ 63.
Proof.
  destruct (serializeAccount_size elements map_to_list elements_perm
              map_to_list_perm farAccount) as (c & Hc & Hlen).
  intros Hser. replace content with c by congruence.
  rewrite Hlen. by vm_compute.
Qed.

Lemma deserialized_account_roundtrips_witness :
  exists content a,
    serializeAccount elements map_to_list (Some farAccount) = Ok content
    /\ deserializeAccount elements map_to_list content = Some (Ok a)
    /\ wf_account a
    /\ exists content',
         serializeAccount elements map_to_list (Some a) = Ok content'
         /\ deserializeAccount elements map_to_list content' = Some (Ok a).
Proof.
  destruct (deserialize_serialize elements map_to_list elements_perm
              map_to_list_perm farAccount farAccount_wf)
    as (content & Hser & Hdes).
  exists content, (persisted farAccount). split; [exact Hser|].
  split; [exact Hdes|].
  apply (deserialized_account_roundtrips elements map_to_list elements_perm
           map_to_list_perm content (persisted farAccount)
           (farAccount_serialized_length content Hser) Hdes).
Defined.

Lemma serializeAccount_fails_only_on_nil_witness :
  serializeAccount elements map_to_list None = Err ErrNilAccount
  /\ exists tail,
       serializeAccount elements map_to_list (Some sampleAccount)
       = Ok (WriteVarInt typeID ++ WriteVarInt 8
             ++ vec_to_list (ID sampleAccount) ++ tail)
       /\ length (WriteVarInt typeID ++ WriteVarInt 8
                  ++ vec_to_list (ID sampleAccount) ++ tail) = 132%nat.
Proof.
  destruct (serializeAccount_fails_only_on_nil elements map_to_list
              elements_perm map_to_list_perm) as (Hnil & Hsome).
  split; [exact Hnil|]. destruct (Hsome sampleAccount) as (tail & H1 & H2).
  exists tail. split; [exact H1|]. rewrite H2. by vm_compute.
Defined.

Lemma serialization_order_irrelevant_witness :
  exists content1 content2,
    serializeAccount elements map_to_list (Some sampleAccount) = Ok content1
    /\ serializeAccount reverseHashes reversePayments (Some sampleAccount)
       = Ok content2
    /\ length content1 = length content2
    /\ forall rH rP,
         deserializeAccount rH rP content1 = Some (Ok (persisted sampleAccount))
         /\ deserializeAccount rH rP content2
            = Some (Ok (persisted sampleAccount)).
Proof.
  apply (serialization_order_irrelevant elements reverseHashes
           map_to_list reversePayments sampleAccount
           elements_perm reverseHashes_perm
           map_to_list_perm reversePayments_perm sampleAccount_wf).
Defined.

Lemma deserialize_checks_fixed_widths_witness :
  deserializeAccount elements map_to_list
    (WriteVarInt typeCurrentBalance ++ WriteVarInt 4
     ++ [Byte.x00; Byte.x00; Byte.x03; Byte.xe8])
  = Some (Err ErrTypeForDecoding).
Proof.
  apply (deserialize_checks_fixed_widths elements map_to_list
           typeCurrentBalance 4 [Byte.x00; Byte.x00; Byte.x03; Byte.xe8]).
  - by vm_compute.
  - right. split; [|discriminate]. right. by left.
Defined.

Lemma deserialize_truncates_or_pads_ID_witness :
  exists a,
    deserializeAccount elements map_to_list
      (WriteVarInt typeID ++ WriteVarInt 3 ++ [Byte.x0a; Byte.x0b; Byte.x0c])
    = Some (Ok a)
    /\ vec_to_list (ID a)
       = [Byte.x0a; Byte.x0b; Byte.x0c; Byte.x00; Byte.x00; Byte.x00;
          Byte.x00; Byte.x00].
Proof.
  apply (deserialize_truncates_or_pads_ID elements map_to_list
           [Byte.x0a; Byte.x0b; Byte.x0c]).
  by vm_compute.
Defined.

(** The account with the wide status once it went through the wire format:
    the status 256 has become 0. *)
Definition narrowStatusAccount : OffChainBalanceAccount :=
  {| ID := ID wideStatusAccount;
     Type_ := 0;
     InitialBalance := 1000;
     CurrentBalance := 1000;
     LastUpdate := time.Unix 1700000000 5;
     ExpirationDate := time.zero;
     Invoices := ∅;
     Payments := {[ hashB := MkPaymentEntry 0 77 ]} |}.

Lemma narrowStatusAccount_wf : wf_account narrowStatusAccount.
Proof.
  unfold wf_account, narrowStatusAccount.
  cbn [Type_ InitialBalance CurrentBalance LastUpdate ExpirationDate
       Invoices Payments].
  rewrite size_empty, map_size_singleton.
  do 7 (split; [by vm_compute|]).
  apply map_Forall_singleton. by vm_compute.
Qed.

Lemma serializeAccount_injective_witness :
  exists content,
    serializeAccount elements map_to_list (Some wideStatusAccount) = Ok content
    /\ serializeAccount elements map_to_list (Some narrowStatusAccount)
       = Ok content
    /\ persisted wideStatusAccount = persisted narrowStatusAccount
    /\ CurrentBalance wideStatusAccount = CurrentBalance narrowStatusAccount.
Proof.
  destruct (serializeAccount elements map_to_list (Some wideStatusAccount))
    as [content|e] eqn:Hwide; [|by vm_compute in Hwide].
  assert (Hnarrow : serializeAccount elements map_to_list
                      (Some narrowStatusAccount) = Ok content).
  { rewrite <- Hwide. by vm_compute. }
  exists content. split; [reflexivity|]. split; [exact Hnarrow|].
  destruct (serializeAccount_injective elements map_to_list elements_perm
              map_to_list_perm wideStatusAccount narrowStatusAccount content
              wideStatusAccount_wf narrowStatusAccount_wf Hwide Hnarrow)
    as (Hp & _ & _ & _ & Hcb & _).
  split; [exact Hp|exact Hcb].
Defined.

End FurtherExamples.
